(** * Transcript segmentation and annotation engine of [bda-to-word.py]

    A shallow embedding of the functions of [src/python/bda-to-word.py] that
    build, merge, classify and paginate speech segments:

    - [create_turn_by_turn_segments]  (the Word Assembler and the Turn Builder),
    - [merge_speaker_segments]        (the Segment Merger),
    - [generate_sentiment]            (the Sentiment Classifier),
    - the topic bookkeeping of [write_transcribe_text] (the Topic Marker Aligner).

    Conventions of the embedding.

    - A Python [float] is a primitive binary64 float of Rocq ([PrimFloat]):
      subtraction, multiplication, division and [>=] are the IEEE operations
      the interpreter runs.  A JSON number that the code passes through
      [float(...)] is stored in the input records as that float.
    - A Python [str] is a [string]; every character stands for one code point.
    - A Python exception is a value of [exn]; a function that may raise
      returns a [result].
    - [SpeechSegment] objects live in a [store] and are named by their
      address, because the merger and the classifier mutate them in place and
      [lastSegment] aliases the tail of [outputSegmentList].  Each object owns
      its [segmentConfidence] list and the word dictionaries in it, as
      [SpeechSegment.__init__] and the Turn Builder allocate them; the token
      list is therefore kept by value inside the segment.  Lists handed to the
      merger hold pairwise distinct objects (one per input turn), which the
      theorems state as [NoDup]. *)

From Stdlib Require Import ZArith List String Ascii Bool Lia Floats.
Import ListNotations.

Set Warnings "-inexact-float".

Open Scope string_scope.
Open Scope list_scope.

(** ** Python results and exceptions *)

Inductive exn : Type :=
| AttributeError   (* attribute access on [None] *)
| IndexError       (* list index out of range *)
| KeyError         (* missing dictionary key *)
| ValueError       (* [int(nan)] *)
| OverflowError    (* [int(inf)] *)
| ExternalError.   (* failure of the external scoring call *)

Inductive result (A : Type) : Type :=
| Ok (a : A)
| Raise (e : exn).

Arguments Ok {A} a.
Arguments Raise {A} e.

Definition bind {A B : Type} (m : result A) (k : A -> result B) : result B :=
  match m with
  | Ok a => k a
  | Raise e => Raise e
  end.

Declare Scope py_scope.
Delimit Scope py_scope with py.
Notation "x <- m ;; k" := (bind m (fun x => k))
  (at level 100, m at next level, right associativity) : py_scope.
Notation "' p <- m ;; k" := (bind m (fun p => k))
  (at level 100, p pattern, m at next level, right associativity) : py_scope.

Definition raises {A : Type} (m : result A) : bool :=
  match m with
  | Ok _ => false
  | Raise _ => true
  end.

(** [l[i]] for a Python list and a Python integer: negative indices count
    from the end, anything outside [-len, len) raises [IndexError]. *)
Definition py_getitem {A : Type} (l : list A) (i : Z) : result A :=
  let n := Z.of_nat (List.length l) in
  let j := if (i <? 0)%Z then (i + n)%Z else i in
  if ((j <? 0) || (n <=? j))%Z then Raise IndexError
  else match nth_error l (Z.to_nat j) with
       | Some a => Ok a
       | None => Raise IndexError
       end.

(** [l[-1] = f(l[-1])]: in-place update of the last element; [l[-1]] raises
    [IndexError] on the empty list. *)
Fixpoint update_last {A : Type} (f : A -> A) (l : list A) : result (list A) :=
  match l with
  | [] => Raise IndexError
  | a :: l' =>
      match l' with
      | [] => Ok [f a]
      | _ :: _ => l'' <- update_last f l' ;; Ok (a :: l'')
      end%py
  end.

(** [int(x)] for a float: truncation toward zero; [nan] and the infinities
    raise. *)
Definition py_int (x : float) : result Z :=
  match Prim2SF x with
  | S754_zero _ => Ok 0%Z
  | S754_finite s m e =>
      let v := (if (0 <=? e) then Zpos m * 2 ^ e else Zpos m / 2 ^ (- e))%Z in
      Ok (if s then (- v)%Z else v)
  | S754_infinity _ => Raise OverflowError
  | S754_nan => Raise ValueError
  end.

(** [s.lower()] on the ASCII range (language tags are ASCII). *)
Definition lower_ascii (c : ascii) : ascii :=
  let n := nat_of_ascii c in
  if (65 <=? n)%nat && (n <=? 90)%nat then ascii_of_nat (n + 32) else c.

Fixpoint lower (s : string) : string :=
  match s with
  | EmptyString => EmptyString
  | String c s' => String (lower_ascii c) (lower s')
  end.

(** [" ".join(l)]. *)
Definition join_space (l : list string) : string := String.concat " " l.

(** ** Data model *)

(** The dictionary appended to [confidenceList] for every timed word. *)
Module Word.
Record t : Type := Build
  { text : string;
    confidence : float;
    start_time : float;
    end_time : float }.

Definition set_text (w : t) (s : string) : t :=
  Build s (confidence w) (start_time w) (end_time w).

(** What identifies a token apart from its (mutable) text. *)
Definition timing (w : t) : float * float * float :=
  (confidence w, start_time w, end_time w).
End Word.

(** One entry of ["moderation_categories"]. *)
Module Guardrail.
Record t : Type := Build
  { category : string;
    confidence : float }.
End Guardrail.

(** [response["SentimentScore"]] of the scoring service. *)
Module SentimentScore.
Record t : Type := Build
  { Positive : float;
    Negative : float;
    Neutral : float;
    Mixed : float }.
End SentimentScore.

(** [class SpeechSegment]; [segmentAllSentiments] is the attribute that
    [generate_sentiment] adds to a scored segment. *)
Record SpeechSegment : Type := Build_SpeechSegment
  { segmentStartTime : float;
    segmentEndTime : float;
    segmentSpeaker : string;
    segmentText : string;
    segmentLanguage : string;
    segmentConfidence : list Word.t;
    segmentContentModeration : list Guardrail.t;
    segmentSentimentScore : float;
    segmentPositive : float;
    segmentNegative : float;
    segmentIsPositive : bool;
    segmentIsNegative : bool;
    segmentAllSentiments : option SentimentScore.t }.

(** [SpeechSegment.__init__]. *)
Definition SpeechSegment_init : SpeechSegment :=
  {| segmentStartTime := 0.0;
     segmentEndTime := 0.0;
     segmentSpeaker := "";
     segmentText := "";
     segmentLanguage := "";
     segmentConfidence := [];
     segmentContentModeration := [];
     segmentSentimentScore := (-1.0)%float;
     segmentPositive := 0.0;
     segmentNegative := 0.0;
     segmentIsPositive := false;
     segmentIsNegative := false;
     segmentAllSentiments := None |}.

Definition set_segmentEndTime (s : SpeechSegment) (x : float) : SpeechSegment :=
  {| segmentStartTime := segmentStartTime s;
     segmentEndTime := x;
     segmentSpeaker := segmentSpeaker s;
     segmentText := segmentText s;
     segmentLanguage := segmentLanguage s;
     segmentConfidence := segmentConfidence s;
     segmentContentModeration := segmentContentModeration s;
     segmentSentimentScore := segmentSentimentScore s;
     segmentPositive := segmentPositive s;
     segmentNegative := segmentNegative s;
     segmentIsPositive := segmentIsPositive s;
     segmentIsNegative := segmentIsNegative s;
     segmentAllSentiments := segmentAllSentiments s |}.

Definition set_segmentText (s : SpeechSegment) (x : string) : SpeechSegment :=
  {| segmentStartTime := segmentStartTime s;
     segmentEndTime := segmentEndTime s;
     segmentSpeaker := segmentSpeaker s;
     segmentText := x;
     segmentLanguage := segmentLanguage s;
     segmentConfidence := segmentConfidence s;
     segmentContentModeration := segmentContentModeration s;
     segmentSentimentScore := segmentSentimentScore s;
     segmentPositive := segmentPositive s;
     segmentNegative := segmentNegative s;
     segmentIsPositive := segmentIsPositive s;
     segmentIsNegative := segmentIsNegative s;
     segmentAllSentiments := segmentAllSentiments s |}.

Definition set_segmentConfidence (s : SpeechSegment) (x : list Word.t) : SpeechSegment :=
  {| segmentStartTime := segmentStartTime s;
     segmentEndTime := segmentEndTime s;
     segmentSpeaker := segmentSpeaker s;
     segmentText := segmentText s;
     segmentLanguage := segmentLanguage s;
     segmentConfidence := x;
     segmentContentModeration := segmentContentModeration s;
     segmentSentimentScore := segmentSentimentScore s;
     segmentPositive := segmentPositive s;
     segmentNegative := segmentNegative s;
     segmentIsPositive := segmentIsPositive s;
     segmentIsNegative := segmentIsNegative s;
     segmentAllSentiments := segmentAllSentiments s |}.

(** ** The object store *)

Definition ref : Type := nat.
Definition store : Type := ref -> SpeechSegment.

(** In-place mutation of the object at address [r]. *)
Definition upd (h : store) (r : ref) (s : SpeechSegment) : store :=
  fun r' => if Nat.eqb r' r then s else h r'.

(** The addresses not yet allocated hold nothing of interest. *)
Definition empty_store : store := fun _ => SpeechSegment_init.

(** ** The Segment Merger: [merge_speaker_segments] *)

Definition START_NEW_SEGMENT_DELAY : float := 2.0.

(** The local variables of the loop. *)
Record merge_state : Type := Build_merge_state
  { outputSegmentList : list ref;
    lastSpeaker : string;
    lastLanguage : string;
    lastSegment : option ref }.

Definition merge_init : merge_state :=
  {| outputSegmentList := [];
     lastSpeaker := "";
     lastLanguage := "";
     lastSegment := None |}.

(** [x != []] for a list. *)
Definition nonempty {A : Type} (l : list A) : bool :=
  match l with
  | [] => false
  | _ :: _ => true
  end.

(** The test of the [if], evaluated left to right: when the speaker differs
    the [or] stops there; otherwise [lastSegment.segmentEndTime] is read,
    which raises on [None]. *)
Definition starts_new_segment (h : store) (st : merge_state) (segment : ref)
  : result bool :=
  if negb (segmentSpeaker (h segment) =? lastSpeaker st)%string then Ok true
  else
    match lastSegment st with
    | None => Raise AttributeError
    | Some last =>
        Ok ((START_NEW_SEGMENT_DELAY
               <=? segmentStartTime (h segment) - segmentEndTime (h last))%float
            || negb (segmentLanguage (h segment) =? lastLanguage st)%string
            || nonempty (segmentContentModeration (h segment)))
    end.

(** The [else] branch, statement by statement. *)
Definition absorb (h : store) (last segment : ref) : result store :=
  (* lastSegment.segmentEndTime = segment.segmentEndTime *)
  let h1 := upd h last (set_segmentEndTime (h last) (segmentEndTime (h segment))) in
  (* lastSegment.segmentText += " " + segment.segmentText *)
  let h2 := upd h1 last
              (set_segmentText (h1 last)
                 (segmentText (h1 last) ++ " " ++ segmentText (h1 segment))%string) in
  (* segment.segmentConfidence[0]["text"] = " " + segment.segmentConfidence[0]["text"] *)
  match segmentConfidence (h2 segment) with
  | [] => Raise IndexError
  | w :: ws =>
      let h3 := upd h2 segment
                  (set_segmentConfidence (h2 segment)
                     (Word.set_text w (" " ++ Word.text w)%string :: ws)) in
      (* for wordConfidence in segment.segmentConfidence: lastSegment.segmentConfidence.append(...) *)
      Ok (upd h3 last
            (set_segmentConfidence (h3 last)
               (segmentConfidence (h3 last) ++ segmentConfidence (h3 segment))))
  end.

(** The body of the [for] loop. *)
Definition merge_step (segment : ref) (st : merge_state) (h : store)
  : result (merge_state * store) :=
  (new <- starts_new_segment h st segment ;;
   if (new : bool) then
     Ok ({| outputSegmentList := outputSegmentList st ++ [segment];
            lastSpeaker := segmentSpeaker (h segment);
            lastLanguage := segmentLanguage (h segment);
            lastSegment := Some segment |}, h)
   else
     match lastSegment st with
     | None => Raise AttributeError
     | Some last => h' <- absorb h last segment ;; Ok (st, h')
     end)%py.

Fixpoint merge_loop (input_segment_list : list ref) (st : merge_state) (h : store)
  : result (merge_state * store) :=
  match input_segment_list with
  | [] => Ok (st, h)
  | segment :: rest =>
      ('(st', h') <- merge_step segment st h ;; merge_loop rest st' h')%py
  end.

Definition merge_speaker_segments (h : store) (input_segment_list : list ref)
  : result (list ref * store) :=
  ('(st, h') <- merge_loop input_segment_list merge_init h ;;
   Ok (outputSegmentList st, h'))%py.

(** The segments a caller sees after a run: the objects of the returned list,
    read from the final store. *)
Definition observe (m : result (list ref * store)) : result (list SpeechSegment) :=
  ('(out, h) <- m ;; Ok (map h out))%py.

(** ** The Word Assembler and the Turn Builder: [create_turn_by_turn_segments] *)

(** An entry of [data["audio_items"]]: a pronunciation carries its
    timestamps, a punctuation mark does not.  The timestamps hold
    [float(word["start_timestamp_millis"])] and the like. *)
Module AudioItem.
Record t : Type := Build
  { content : string;
    start_timestamp_millis : option float;
    end_timestamp_millis : option float }.

Definition timed (w : t) : bool :=
  match start_timestamp_millis w with
  | Some _ => true
  | None => false
  end.
End AudioItem.

(** An entry of [data["audio_segments"]]. *)
Module Turn.
Record t : Type := Build
  { start_timestamp_millis : float;
    end_timestamp_millis : float;
    speaker_label : string;
    text : string;
    language : string;
    audio_item_indices : list Z }.
End Turn.

(** The part of the job output that the Turn Builder reads;
    [content_moderation] is [data["audio"]["content_moderation"]] with the
    ["moderation_categories"] of every turn, when the key is there. *)
Record bda_data : Type := Build_bda_data
  { audio_segments : list Turn.t;
    audio_items : list AudioItem.t;
    content_moderation : option (list (list Guardrail.t)) }.

Record cli_args : Type := Build_cli_args
  { guardrailCheck : string;
    guardrailLimit : float;
    sentiment : string }.

(** The state of the word loop: [skipLeadingSpace] and [confidenceList]. *)
Definition word_state : Type := (bool * list Word.t)%type.

(** The body of [for word_ptr in turn["audio_item_indices"]], once [word]
    has been fetched. *)
Definition add_word (word : AudioItem.t) (st : word_state) : result word_state :=
  let '(skipLeadingSpace, confidenceList) := st in
  match AudioItem.start_timestamp_millis word with
  | Some start_ms =>
      let wordToAdd :=
        if skipLeadingSpace then AudioItem.content word
        else (" " ++ AudioItem.content word)%string in
      match AudioItem.end_timestamp_millis word with
      | None => Raise KeyError
      | Some end_ms =>
          Ok (false,
              confidenceList ++
                [ {| Word.text := wordToAdd;
                     Word.confidence := 1.0;
                     Word.start_time := (start_ms / 1000.0)%float;
                     Word.end_time := (end_ms / 1000.0)%float |} ])
      end
  | None =>
      (* last_word = segmentConfidence[-1]; last_word["text"] += word["content"] *)
      (l <- update_last
              (fun last_word =>
                 Word.set_text last_word
                   (Word.text last_word ++ AudioItem.content word)%string)
              confidenceList ;;
       Ok (skipLeadingSpace, l))%py
  end.

Fixpoint word_loop (items : list AudioItem.t) (indices : list Z) (st : word_state)
  : result word_state :=
  match indices with
  | [] => Ok st
  | word_ptr :: rest =>
      (word <- py_getitem items word_ptr ;;
       st' <- add_word word st ;;
       word_loop items rest st')%py
  end.

(** The tokens of one turn: [skipLeadingSpace = True], [confidenceList = []],
    then the word loop. *)
Definition assemble_words (items : list AudioItem.t) (indices : list Z)
  : result (list Word.t) :=
  ('(_, confidenceList) <- word_loop items indices (true, []) ;;
   Ok confidenceList)%py.

(** The guardrail entries of turn number [index] that reach the limit. *)
Definition moderation_of (data : bda_data) (cli : cli_args) (index : nat)
  : result (list Guardrail.t) :=
  if (guardrailCheck cli =? "on")%string then
    match content_moderation data with
    | None => Raise KeyError
    | Some cm =>
        match nth_error cm index with
        | None => Raise IndexError
        | Some moderation_categories =>
            Ok (filter
                  (fun guardrail =>
                     (guardrailLimit cli <=? Guardrail.confidence guardrail)%float)
                  moderation_categories)
        end
    end
  else Ok [].

(** The segment object of one turn, as it stands at the end of the turn's
    iteration. *)
Definition build_segment (data : bda_data) (cli : cli_args) (index : nat)
  (turn : Turn.t) : result SpeechSegment :=
  (confidenceList <- assemble_words (audio_items data) (Turn.audio_item_indices turn) ;;
   moderation <- moderation_of data cli index ;;
   Ok {| segmentStartTime := (Turn.start_timestamp_millis turn / 1000.0)%float;
         segmentEndTime := (Turn.end_timestamp_millis turn / 1000.0)%float;
         segmentSpeaker := Turn.speaker_label turn;
         segmentText := Turn.text turn;
         segmentLanguage := lower (Turn.language turn);
         segmentConfidence := confidenceList;
         segmentContentModeration := moderation;
         segmentSentimentScore := (-1.0)%float;
         segmentPositive := 0.0;
         segmentNegative := 0.0;
         segmentIsPositive := false;
         segmentIsNegative := false;
         segmentAllSentiments := None |})%py.

(** [for turn in data["audio_segments"]]: the object made for turn number
    [index] is allocated at address [index]. *)
Fixpoint turn_loop (data : bda_data) (cli : cli_args) (turns : list Turn.t)
  (index : nat) (h : store) (speechSegmentList : list ref)
  : result (list ref * store) :=
  match turns with
  | [] => Ok (speechSegmentList, h)
  | turn :: rest =>
      (nextSpeechSegment <- build_segment data cli index turn ;;
       turn_loop data cli rest (S index) (upd h index nextSpeechSegment)
         (speechSegmentList ++ [index]))%py
  end.

Definition create_turn_by_turn_segments (data : bda_data) (cli : cli_args)
  : result (list ref * store) :=
  ('(speechSegmentList, h) <-
     turn_loop data cli (audio_segments data) 0 empty_store [] ;;
   merge_speaker_segments h speechSegmentList)%py.

(** *** The assembly rule in the words of the specification

    The first timed item gives its text verbatim, every later timed item is
    prefixed with one space, and the untimed items that follow a timed item
    are glued, without a space, to its token. *)

(** The untimed items that directly follow, concatenated. *)
Fixpoint trailing_punctuation (items : list AudioItem.t) : string :=
  match items with
  | [] => ""
  | w :: rest =>
      if AudioItem.timed w then ""
      else (AudioItem.content w ++ trailing_punctuation rest)%string
  end.

Fixpoint spec_tokens (lead : string) (items : list AudioItem.t) : list Word.t :=
  match items with
  | [] => []
  | w :: rest =>
      match AudioItem.start_timestamp_millis w, AudioItem.end_timestamp_millis w with
      | Some start_ms, Some end_ms =>
          {| Word.text :=
               (lead ++ AudioItem.content w ++ trailing_punctuation rest)%string;
             Word.confidence := 1.0;
             Word.start_time := (start_ms / 1000.0)%float;
             Word.end_time := (end_ms / 1000.0)%float |}
            :: spec_tokens " " rest
      | _, _ => spec_tokens lead rest
      end
  end.

(** Every timed item carries both of its timestamps. *)
Definition well_timed (w : AudioItem.t) : bool :=
  match AudioItem.start_timestamp_millis w, AudioItem.end_timestamp_millis w with
  | Some _, None => false
  | _, _ => true
  end.

(** The concatenation of the token texts of a segment. *)
Definition tokens_text (l : list Word.t) : string :=
  String.concat "" (map Word.text l).

(** ** The Sentiment Classifier: [generate_sentiment] *)

Definition MIN_SENTIMENT_LENGTH : nat := 16.
Definition MIN_SENTIMENT_NEGATIVE : float := 0.4.
Definition MIN_SENTIMENT_POSITIVE : float := 0.6.
Definition SENTIMENT_LANGUAGES : list string :=
  ["en"; "es"; "fr"; "de"; "it"; "pt"; "ar"; "hi"; "ja"; "ko"; "zh-TW"; "zh"].

(** [x in l] for strings. *)
Definition str_in (x : string) (l : list string) : bool :=
  existsb (String.eqb x) l.

(** The two guards of the loop body. *)
Definition eligible (s : SpeechSegment) : bool :=
  str_in (segmentLanguage s) SENTIMENT_LANGUAGES
  && (MIN_SENTIMENT_LENGTH <=? String.length (segmentText s))%nat.

Definition set_sentiment (s : SpeechSegment) (isPositive isNegative : bool)
  (score : float) : SpeechSegment :=
  {| segmentStartTime := segmentStartTime s;
     segmentEndTime := segmentEndTime s;
     segmentSpeaker := segmentSpeaker s;
     segmentText := segmentText s;
     segmentLanguage := segmentLanguage s;
     segmentConfidence := segmentConfidence s;
     segmentContentModeration := segmentContentModeration s;
     segmentSentimentScore := score;
     segmentPositive := segmentPositive s;
     segmentNegative := segmentNegative s;
     segmentIsPositive := isPositive;
     segmentIsNegative := isNegative;
     segmentAllSentiments := segmentAllSentiments s |}.

Definition set_raw_scores (s : SpeechSegment) (all : SentimentScore.t)
  (positive negative : float) : SpeechSegment :=
  {| segmentStartTime := segmentStartTime s;
     segmentEndTime := segmentEndTime s;
     segmentSpeaker := segmentSpeaker s;
     segmentText := segmentText s;
     segmentLanguage := segmentLanguage s;
     segmentConfidence := segmentConfidence s;
     segmentContentModeration := segmentContentModeration s;
     segmentSentimentScore := segmentSentimentScore s;
     segmentPositive := positive;
     segmentNegative := negative;
     segmentIsPositive := segmentIsPositive s;
     segmentIsNegative := segmentIsNegative s;
     segmentAllSentiments := Some all |}.

(** The thresholds, applied to a segment that has just been scored. *)
Definition apply_scores (s : SpeechSegment) (response : SentimentScore.t)
  : SpeechSegment :=
  let positiveBase := SentimentScore.Positive response in
  let negativeBase := SentimentScore.Negative response in
  let s1 :=
    if (MIN_SENTIMENT_NEGATIVE <=? negativeBase)%float then
      (* segmentIsNegative = True; segmentSentimentScore = negativeBase *)
      set_sentiment s (segmentIsPositive s) true negativeBase
    else if (MIN_SENTIMENT_POSITIVE <=? positiveBase)%float then
      (* segmentIsPositive = True; segmentSentimentScore = positiveBase *)
      set_sentiment s true (segmentIsNegative s) positiveBase
    else s in
  set_raw_scores s1 response positiveBase negativeBase.

Section Sentiment.

(** [client.detect_sentiment(Text=..., LanguageCode=...)["SentimentScore"]]:
    the external scoring capability, which may raise. *)
Variable detect_sentiment : string -> string -> result SentimentScore.t.

(** The body of the loop, on the object read from the store. *)
Definition score_segment (nextSegment : SpeechSegment) : result SpeechSegment :=
  if str_in (segmentLanguage nextSegment) SENTIMENT_LANGUAGES then
    if (MIN_SENTIMENT_LENGTH <=? String.length (segmentText nextSegment))%nat then
      (response <- detect_sentiment (segmentText nextSegment)
                     (segmentLanguage nextSegment) ;;
       Ok (apply_scores nextSegment response))%py
    else Ok nextSegment
  else Ok nextSegment.

Fixpoint generate_sentiment (segment_list : list ref) (h : store) : result store :=
  match segment_list with
  | [] => Ok h
  | nextSegment :: rest =>
      (s <- score_segment (h nextSegment) ;;
       generate_sentiment rest (upd h nextSegment s))%py
  end.

End Sentiment.

(** The label that rendering shows for a segment ([write_transcribe_text]
    draws a picture only for the first two). *)
Inductive label : Type := positive | negative | neutral_or_mixed | both_flags.

Definition label_of (s : SpeechSegment) : label :=
  match segmentIsPositive s, segmentIsNegative s with
  | true, false => positive
  | false, true => negative
  | false, false => neutral_or_mixed
  | true, true => both_flags
  end.

(** A segment on which the classifier has not run. *)
Definition unset (s : SpeechSegment) : Prop :=
  segmentIsPositive s = false /\ segmentIsNegative s = false
  /\ segmentSentimentScore s = (-1.0)%float.

(** ** The Topic Marker Aligner: the loop of [write_transcribe_text]

    Only the topic bookkeeping and the control of the loop are modelled; the
    calls that fill and style the table cells are taken to succeed. *)

(** An entry of [timed_topics]: [{"start_time": ..., "index": ...}]. *)
Module Topic.
Record t : Type := Build
  { start_time : Z;
    index : Z }.
End Topic.

(** The two kinds of Python values that the membership tests compare. *)
Inductive pyval : Type :=
| PyInt (n : Z)
| PyDict (d : Topic.t).

(** [a == b]: an [int] never equals a [dict]. *)
Definition py_eq (a b : pyval) : bool :=
  match a, b with
  | PyInt x, PyInt y => (x =? y)%Z
  | PyDict d, PyDict d' =>
      (Topic.start_time d =? Topic.start_time d')%Z
      && (Topic.index d =? Topic.index d')%Z
  | _, _ => false
  end.

(** [x in l]. *)
Definition py_in (x : pyval) (l : list pyval) : bool := existsb (py_eq x) l.

(** [l.index(x)], when [x in l]. *)
Fixpoint py_index (x : pyval) (l : list pyval) : option nat :=
  match l with
  | [] => None
  | y :: l' => if py_eq y x then Some 0%nat else option_map S (py_index x l')
  end.

(** [l.pop(idx)], for [idx] in range. *)
Fixpoint pop {A : Type} (idx : nat) (l : list A) : list A :=
  match idx, l with
  | _, [] => []
  | O, _ :: l' => l'
  | S i, a :: l' => a :: pop i l'
  end.

(** What is written in the content cell of a row. *)
Inductive run : Type :=
| TopicMarker (n : Z)                       (* "[Topic n]" *)
| Space                                     (* " " *)
| WordRun (text : string) (confidence : float).

Record row : Type := Build_row
  { row_segment : ref;
    row_speaker : string;
    row_content : list run }.

(** [while start_in_millis in topics_unmarked: ...], unrolled [fuel] times;
    every turn of the loop pops one entry of [topics_unmarked], so its length
    bounds the number of turns. *)
Fixpoint mark_topics (fuel : nat) (start_in_millis : Z)
  (timed_topics : list Topic.t) (topics_unmarked : list Z) (runs : list run)
  : result (list run * list Topic.t * list Z) :=
  match fuel with
  | O => Ok (runs, timed_topics, topics_unmarked)
  | S fuel' =>
      if py_in (PyInt start_in_millis) (map PyInt topics_unmarked) then
        match py_index (PyInt start_in_millis) (map PyInt topics_unmarked) with
        | None => Raise ValueError
        | Some idx =>
            match nth_error timed_topics idx with
            | None => Raise IndexError
            | Some topic =>
                mark_topics fuel' start_in_millis
                  (pop idx timed_topics) (pop idx topics_unmarked)
                  (runs ++ [TopicMarker (Topic.index topic + 1); Space])
            end
        end
      else Ok (runs, timed_topics, topics_unmarked)
  end.

(** The [for segment in speech_segments] loop; [rows] are the table rows
    written so far.  The result is the list of rows at the end of the loop. *)
Fixpoint write_rows (h : store) (speech_segments : list ref)
  (timed_topics : list Topic.t) (topics_unmarked : list Z) (rows : list row)
  : result (list row) :=
  match speech_segments with
  | [] => Ok rows
  | segment :: rest =>
      (start_in_millis <- py_int (segmentStartTime (h segment) * 1000.0)%float ;;
       end_in_millis <- py_int (segmentEndTime (h segment) * 1000.0)%float ;;
       '(markers, timed_topics', topics_unmarked') <-
          mark_topics (List.length topics_unmarked) start_in_millis
            timed_topics topics_unmarked [] ;;
       let words :=
         map (fun eachWord => WordRun (Word.text eachWord) (Word.confidence eachWord))
           (segmentConfidence (h segment)) in
       let rows' :=
         rows ++ [ {| row_segment := segment;
                      row_speaker := segmentSpeaker (h segment);
                      row_content := markers ++ words |} ] in
       (* if end_in_millis in timed_topics: break *)
       if py_in (PyInt end_in_millis) (map PyDict timed_topics') then Ok rows'
       else write_rows h rest timed_topics' topics_unmarked' rows')%py
  end.

Definition write_transcribe_text (h : store) (speech_segments : list ref)
  (timed_topics : list Topic.t) : result (list row) :=
  (* topics_unmarked = [d["start_time"] for d in timed_topics] *)
  let topics_unmarked := map Topic.start_time timed_topics in
  write_rows h speech_segments timed_topics topics_unmarked [].

(** The loop as its comment describes it: the test on the end time looks the
    time up among the topic times.  Used only to state what the
    specification asks of the loop. *)
Definition ends_at_topic (h : store) (segment : ref) (timed_topics : list Topic.t)
  : bool :=
  match py_int (segmentEndTime (h segment) * 1000.0)%float with
  | Ok end_in_millis =>
      existsb (fun d => (Topic.start_time d =? end_in_millis)%Z) timed_topics
  | Raise _ => false
  end.

(** *** What absorption does, in the words of the specification *)

(** The absorbed segment after its first token has received a leading
    space. *)
Definition spaced (segment : SpeechSegment) : SpeechSegment :=
  match segmentConfidence segment with
  | [] => segment
  | w :: ws =>
      set_segmentConfidence segment
        (Word.set_text w (" " ++ Word.text w)%string :: ws)
  end.

(** The previous segment after it has absorbed [segment]: the end time is
    the absorbed one, the text grows by a space and the absorbed text, and
    the absorbed tokens follow its own. *)
Definition merged (previous segment : SpeechSegment) : SpeechSegment :=
  set_segmentConfidence
    (set_segmentText
       (set_segmentEndTime previous (segmentEndTime segment))
       (segmentText previous ++ " " ++ segmentText segment)%string)
    (segmentConfidence previous ++ segmentConfidence (spaced segment)).

(** The start-time gap between a segment and the output segment that
    precedes it. *)
Definition gap (previous segment : SpeechSegment) : float :=
  (segmentStartTime segment - segmentEndTime previous)%float.

(** The four continuation conditions of the specification: same speaker,
    gap strictly below the delay, same language, no moderation flag. *)
Definition continues_spec (previous segment : SpeechSegment) : bool :=
  (segmentSpeaker segment =? segmentSpeaker previous)%string
  && (gap previous segment <? START_NEW_SEGMENT_DELAY)%float
  && (segmentLanguage segment =? segmentLanguage previous)%string
  && negb (nonempty (segmentContentModeration segment)).

(** The same conditions as the loop tests them: the negation of its [if],
    which differs from [continues_spec] only when the gap is not a number
    (every comparison with [nan] is false). *)
Definition continues (previous segment : SpeechSegment) : bool :=
  (segmentSpeaker segment =? segmentSpeaker previous)%string
  && negb (START_NEW_SEGMENT_DELAY <=? gap previous segment)%float
  && (segmentLanguage segment =? segmentLanguage previous)%string
  && negb (nonempty (segmentContentModeration segment)).

(** The last element of a Python list, if any. *)
Definition last_ref (l : list ref) : option ref :=
  match rev l with
  | [] => None
  | r :: _ => Some r
  end.

(** The fields of a segment that the merger never writes. *)
Definition static (s : SpeechSegment)
  : float * string * string * list Guardrail.t :=
  (segmentStartTime s, segmentSpeaker s, segmentLanguage s,
   segmentContentModeration s).

(** The loop variables agree with the tail of the output list. *)
Definition tail_ok (h : store) (st : merge_state) : Prop :=
  lastSegment st = last_ref (outputSegmentList st)
  /\ match lastSegment st with
     | None => lastSpeaker st = "" /\ lastLanguage st = ""
     | Some p =>
         lastSpeaker st = segmentSpeaker (h p)
         /\ lastLanguage st = segmentLanguage (h p)
     end.

(** No two neighbours of an output list can be merged, and its head does not
    trip over the empty initial speaker. *)
Fixpoint settled_from (h : store) (p : ref) (l : list ref) : Prop :=
  match l with
  | [] => True
  | r :: l' => continues (h p) (h r) = false /\ settled_from h r l'
  end.

Definition settled (h : store) (l : list ref) : Prop :=
  match l with
  | [] => True
  | r :: l' => segmentSpeaker (h r) <> "" /\ settled_from h r l'
  end.

(** A segment whose text is the concatenation of its token texts. *)
Definition text_matches_tokens (s : SpeechSegment) : Prop :=
  segmentText s = tokens_text (segmentConfidence s).

(** The items of a turn begin with a timed one, if there is any item. *)
Definition starts_timed (words : list AudioItem.t) : bool :=
  match words with
  | [] => true
  | w :: _ => AudioItem.timed w
  end.

(** ** Example data *)

Definition word (s : string) (a b : float) : Word.t :=
  {| Word.text := s; Word.confidence := 1.0; Word.start_time := a; Word.end_time := b |}.

Definition segment_of (a b : float) (speaker txt lang : string)
  (words : list Word.t) (flags : list Guardrail.t) : SpeechSegment :=
  {| segmentStartTime := a;
     segmentEndTime := b;
     segmentSpeaker := speaker;
     segmentText := txt;
     segmentLanguage := lang;
     segmentConfidence := words;
     segmentContentModeration := flags;
     segmentSentimentScore := (-1.0)%float;
     segmentPositive := 0.0;
     segmentNegative := 0.0;
     segmentIsPositive := false;
     segmentIsNegative := false;
     segmentAllSentiments := None |}.

(** A store that holds the segments of [l] at the addresses 0, 1, ... *)
Definition store_of (l : list SpeechSegment) : store :=
  fun r => nth r l SpeechSegment_init.

Definition flag : Guardrail.t :=
  {| Guardrail.category := "profanity"; Guardrail.confidence := 0.9 |}.

(** The scenario of the specification: turn A ends at 10.0 s, turn B
    starts at 10.5 s, or at 13.0 s. *)
Definition turn_A : SpeechSegment :=
  segment_of 8.0 10.0 "spk_0" "Good morning." "en"
    [word "Good" 8.0 9.0; word " morning." 9.0 10.0] [].

Definition turn_B : SpeechSegment :=
  segment_of 10.5 12.0 "spk_0" "How are you?" "en"
    [word "How" 10.5 11.0; word " are" 11.0 11.5; word " you?" 11.5 12.0] [].

Definition turn_B_late : SpeechSegment :=
  segment_of 13.0 14.5 "spk_0" "How are you?" "en"
    [word "How" 13.0 13.5; word " are" 13.5 14.0; word " you?" 14.0 14.5] [].

Definition turn_AB : SpeechSegment :=
  segment_of 8.0 12.0 "spk_0" "Good morning. How are you?" "en"
    [word "Good" 8.0 9.0; word " morning." 9.0 10.0;
     word " How" 10.5 11.0; word " are" 11.0 11.5; word " you?" 11.5 12.0] [].

(** Turn A with a moderation flag, and what it has become once turn B has
    been merged into it. *)
Definition turn_A_flagged : SpeechSegment :=
  segment_of 8.0 10.0 "spk_0" "Good morning." "en"
    [word "Good" 8.0 9.0; word " morning." 9.0 10.0] [flag].

Definition turn_AB_flagged : SpeechSegment :=
  segment_of 8.0 12.0 "spk_0" "Good morning. How are you?" "en"
    [word "Good" 8.0 9.0; word " morning." 9.0 10.0;
     word " How" 10.5 11.0; word " are" 11.0 11.5; word " you?" 11.5 12.0] [flag].

Definition turn_B_flagged : SpeechSegment :=
  segment_of 10.5 12.0 "spk_0" "How are you?" "en"
    [word "How" 10.5 11.0; word " are" 11.0 11.5; word " you?" 11.5 12.0] [flag].

(** A turn C that follows turn B closely. *)
Definition turn_C : SpeechSegment :=
  segment_of 12.5 13.5 "spk_0" "Fine, thanks." "en"
    [word "Fine," 12.5 13.0; word " thanks." 13.0 13.5] [].

(** Turn B without any word. *)
Definition turn_B_wordless : SpeechSegment :=
  segment_of 10.5 12.0 "spk_0" "" "en" [] [].

(** Turn A under an empty speaker label. *)
Definition turn_A_unlabelled : SpeechSegment :=
  segment_of 8.0 10.0 "" "Good morning." "en"
    [word "Good" 8.0 9.0; word " morning." 9.0 10.0] [].

(** The store that a run of the merger leaves, or the one it found when it
    raised. *)
Definition store_after (h : store) (l : list ref) : store :=
  match merge_speaker_segments h l with
  | Ok (_, h') => h'
  | Raise _ => h
  end.

(** Job outputs for the Turn Builder. *)
Definition hello_items : list AudioItem.t :=
  [ {| AudioItem.content := "Hello";
       AudioItem.start_timestamp_millis := Some 0%float;
       AudioItem.end_timestamp_millis := Some 500%float |};
    {| AudioItem.content := ".";
       AudioItem.start_timestamp_millis := None;
       AudioItem.end_timestamp_millis := None |} ].

Definition no_guardrails : cli_args :=
  {| guardrailCheck := "off"; guardrailLimit := 0.2; sentiment := "off" |}.

Definition hello_turn (text : string) (indices : list Z) : Turn.t :=
  {| Turn.start_timestamp_millis := 0;
     Turn.end_timestamp_millis := 500;
     Turn.speaker_label := "spk_0";
     Turn.text := text;
     Turn.language := "en";
     Turn.audio_item_indices := indices |}.

(** One turn, "Hello" then ".", under a text that its items do not
    spell. *)
Definition hello_data_other_text : bda_data :=
  {| audio_segments := [hello_turn "Hello" [0; 1]%Z];
     audio_items := hello_items;
     content_moderation := None |}.

Definition hello_segment_other_text : SpeechSegment :=
  segment_of 0.0 0.5 "spk_0" "Hello" "en" [word "Hello." 0.0 0.5] [].

(** Two turns of one speaker, "Hello" "." and then "World" "!", each under
    the text that its items spell. *)
Definition greeting_data : bda_data :=
  {| audio_segments :=
       [ hello_turn "Hello." [0; 1]%Z;
         {| Turn.start_timestamp_millis := 600;
            Turn.end_timestamp_millis := 900;
            Turn.speaker_label := "spk_0";
            Turn.text := "World!";
            Turn.language := "en";
            Turn.audio_item_indices := [2; 3]%Z |} ];
     audio_items :=
       hello_items ++
         [ {| AudioItem.content := "World";
              AudioItem.start_timestamp_millis := Some 600%float;
              AudioItem.end_timestamp_millis := Some 900%float |};
           {| AudioItem.content := "!";
              AudioItem.start_timestamp_millis := None;
              AudioItem.end_timestamp_millis := None |} ];
     content_moderation := None |}.

(** A turn that begins with the punctuation mark. *)
Definition punctuation_first_data : bda_data :=
  {| audio_segments := [hello_turn ".Hello" [1; 0]%Z];
     audio_items := hello_items;
     content_moderation := None |}.

(** A scoring capability that answers the same scores for every text. *)
Definition constant_scores (positive negative : float)
  : string -> string -> result SentimentScore.t :=
  fun _ _ =>
    Ok {| SentimentScore.Positive := positive;
          SentimentScore.Negative := negative;
          SentimentScore.Neutral := 0.0;
          SentimentScore.Mixed := 0.0 |}.

(** The store that the classifier leaves, or the one it found when the
    scoring capability raised. *)
Definition store_scored (detect_sentiment : string -> string -> result SentimentScore.t)
  (h : store) (l : list ref) : store :=
  match generate_sentiment detect_sentiment l h with
  | Ok h' => h'
  | Raise _ => h
  end.

(** A topic that starts when turn A ends. *)
Definition topic_at_10s : Topic.t := {| Topic.start_time := 10000; Topic.index := 0 |}.

(** The rows that a run has written, none when it raised. *)
Definition rows_of (m : result (list row)) : list row :=
  match m with
  | Ok rows => rows
  | Raise _ => []
  end.

(** The store that the Turn Builder leaves, or the empty one when it
    raised. *)
Definition created_store (data : bda_data) (cli : cli_args) : store :=
  match create_turn_by_turn_segments data cli with
  | Ok (_, h) => h
  | Raise _ => empty_store
  end.

(** The fields that only the classifier writes. *)
Definition sentiment_fields (s : SpeechSegment) : bool * bool * float :=
  (segmentIsPositive s, segmentIsNegative s, segmentSentimentScore s).
(** * Further functions of [bda-to-word.py] *)

(** ** [create_text_array] *)

(** The [for] loop, with its counter [index] and its accumulator
    [text_line]. *)
Fixpoint text_array_loop (whole_array : list string) (index : nat)
  (text_line : string) : string :=
  match whole_array with
  | [] => text_line
  | array_element :: rest =>
      let text_line :=
        if (0 <? index)%nat then (text_line ++ ", ")%string else text_line in
      text_array_loop rest (S index) (text_line ++ array_element)%string
  end.

Definition create_text_array (whole_array : list string) : string :=
  text_array_loop whole_array 0 "".

(** ** [create_pie_chart]: what is handed to the plotting library *)

Definition second_colour_offsets : list Z := [19; 4; 7; 3; 10; 8]%Z.

(** The sizes of the two wedges and the indices of their colours in the
    twenty colours of [tab20c]; [pie_value] is the integer that [write]
    passes. *)
Definition pie_chart_plan (pie_value : Z) : result (list Z * list Z) :=
  (let sizes := [pie_value; 5 - pie_value]%Z in
   second_colour_offset <- py_getitem second_colour_offsets pie_value ;;
   Ok (sizes, [second_colour_offset; 19%Z]))%py.

(** ** [set_transcript_text_style] *)

(** [RGBColor(r, g, b)]. *)
Inductive RGBColor : Type := RGB (r g b : Z).

(** The properties of a run of text that the function writes. *)
Record text_run : Type := Build_text_run
  { font_color : option RGBColor;
    font_bold : bool;
    font_highlight : bool }.

Definition plain_run : text_run :=
  {| font_color := None; font_bold := false; font_highlight := false |}.

Definition set_transcript_text_style (run : text_run) (force_highlight : bool)
  (confidence : float) (rgb_color : option RGBColor) : text_run :=
  let colour :=
    match rgb_color with
    | Some c => c
    | None =>
        if (0.90 <=? confidence)%float then RGB 0 0 0
        else if (0.5 <=? confidence)%float then RGB 102 51 0
        else RGB 255 0 0
    end in
  {| font_color := Some colour;
     font_bold := if (confidence =? 0.0)%float then true else font_bold run;
     font_highlight := if force_highlight then true else font_highlight run |}.

(** The style that [write_transcribe_text] gives to the run of a word. *)
Definition word_style (eachWord : Word.t) : text_run :=
  set_transcript_text_style plain_run false (Word.confidence eachWord) None.

(** ** [write_comprehend_sentiment]: the data of the chart *)

Definition speaker0labels : list string := ["ch_0"; "spk_0"].
Definition speaker1labels : list string := ["ch_1"; "spk_1"].

(** The four lists that the loop fills. *)
Record lanes : Type := Build_lanes
  { speaker0timestamps : list float;
    speaker0data : list float;
    speaker1timestamps : list float;
    speaker1data : list float }.

Definition no_lanes : lanes :=
  {| speaker0timestamps := []; speaker0data := [];
     speaker1timestamps := []; speaker1data := [] |}.

(** The body of [for segment in speech_segments]. *)
Definition add_to_lanes (segment : SpeechSegment) (ln : lanes) : lanes :=
  if segmentIsPositive segment || segmentIsNegative segment then
    let score :=
      if segmentIsNegative segment then (- segmentSentimentScore segment)%float
      else segmentSentimentScore segment in
    let timestamp := segmentStartTime segment in
    if str_in (segmentSpeaker segment) speaker1labels then
      {| speaker0timestamps := speaker0timestamps ln;
         speaker0data := speaker0data ln;
         speaker1timestamps := speaker1timestamps ln ++ [timestamp];
         speaker1data := speaker1data ln ++ [score] |}
    else if str_in (segmentSpeaker segment) speaker0labels then
      {| speaker0timestamps := speaker0timestamps ln ++ [timestamp];
         speaker0data := speaker0data ln ++ [score];
         speaker1timestamps := speaker1timestamps ln;
         speaker1data := speaker1data ln |}
    else ln
  else ln.

Fixpoint collect_lanes (h : store) (speech_segments : list ref) (ln : lanes)
  : lanes :=
  match speech_segments with
  | [] => ln
  | segment :: rest => collect_lanes h rest (add_to_lanes (h segment) ln)
  end.

(** [l[0]] and [l[-1]]. *)
Definition py_first {A : Type} (l : list A) : result A := py_getitem l 0%Z.
Definition py_last {A : Type} (l : list A) : result A := py_getitem l (-1)%Z.

(** The degree of the spline of a lane: 3, or 1 below five points. *)
Definition spline_degree (data : list float) : nat :=
  if (List.length data <? 5)%nat then 1%nat else 3%nat.

(** [max(a, b)] for two floats: the first one unless the second is
    greater. *)
Definition py_max (a b : float) : float := if (a <? b)%float then b else a.

Section SentimentChart.

(** The calls into numpy, scipy and matplotlib that draw one lane, from the
    first and last timestamp, the number of points of the smooth curve, the
    lane and the degree of the spline; and the calls that finish the chart,
    from the end of its time axis.  They may raise. *)
Variable draw_lane : float -> float -> Z -> list float -> list float -> nat -> result unit.
Variable finish_chart : float -> result unit.

(** The arguments of [np.linspace] for a lane, evaluated left to right, and
    the drawing of the lane. *)
Definition plot_lane (timestamps data : list float) (k : nat) : result unit :=
  (first <- py_first timestamps ;;
   last <- py_last timestamps ;;
   last' <- py_last timestamps ;;
   first' <- py_first timestamps ;;
   points <- py_int ((last' - first') + 1.0)%float ;;
   draw_lane first last points timestamps data k)%py.

(** The function after its two header paragraphs and the opening of the
    figure, which are taken to succeed. *)
Definition write_comprehend_sentiment (h : store) (speech_segments : list ref)
  : result unit :=
  (let ln := collect_lanes h speech_segments no_lanes in
   let speaker1k := spline_degree (speaker1data ln) in
   let speaker0k := spline_degree (speaker0data ln) in
   _ <- plot_lane (speaker0timestamps ln) (speaker0data ln) speaker0k ;;
   _ <- plot_lane (speaker1timestamps ln) (speaker1data ln) speaker1k ;;
   last0 <- py_last (speaker0timestamps ln) ;;
   last1 <- py_last (speaker1timestamps ln) ;;
   finish_chart (py_max last0 last1))%py.

End SentimentChart.

(** ** [generate_document]: from the job output to the classified transcript *)

(** [if cli_args.guardrailCheck == 'on': if "content_moderation" not in
    json_data['audio']: cli_args.guardrailCheck == 'off'].  The last
    statement is a comparison, whose value is dropped: the arguments stay
    as they are. *)
Definition guardrail_guard (cli : cli_args) (data : bda_data) : cli_args :=
  if (guardrailCheck cli =? "on")%string then
    match content_moderation data with
    | None => let _ := (guardrailCheck cli =? "off")%string in cli
    | Some _ => cli
    end
  else cli.

Section Transcript.

Variable detect_sentiment : string -> string -> result SentimentScore.t.

(** The steps of [generate_document] between the loading of the job output
    and the call of [write]. *)
Definition transcript (data : bda_data) (cli : cli_args)
  : result (list ref * store) :=
  (let cli := guardrail_guard cli data in
   '(speech_segments, h) <- create_turn_by_turn_segments data cli ;;
   if (sentiment cli =? "on")%string then
     h' <- generate_sentiment detect_sentiment speech_segments h ;;
     Ok (speech_segments, h')
   else Ok (speech_segments, h))%py.

End Transcript.

(** ** Vocabulary of the further properties *)

(** The segments of a list that do not continue the segment before them:
    the heads of the groups that the merger forms. *)
Fixpoint heads_from (h : store) (previous : ref) (l : list ref) : list ref :=
  match l with
  | [] => []
  | r :: l' =>
      if continues (h previous) (h r) then heads_from h r l'
      else r :: heads_from h r l'
  end.

Definition heads (h : store) (l : list ref) : list ref :=
  match l with
  | [] => []
  | r :: l' => r :: heads_from h r l'
  end.

(** A token with the confidence that the Turn Builder writes. *)
Definition confident (w : Word.t) : Prop := Word.confidence w = 1.0%float.

(** The segments that the chart of a speaker shows, and the score it
    shows for them. *)
Definition labelled (s : SpeechSegment) : bool :=
  segmentIsPositive s || segmentIsNegative s.

Definition charted1 (s : SpeechSegment) : bool :=
  labelled s && str_in (segmentSpeaker s) speaker1labels.

Definition charted0 (s : SpeechSegment) : bool :=
  labelled s && negb (str_in (segmentSpeaker s) speaker1labels)
  && str_in (segmentSpeaker s) speaker0labels.

Definition signed_score (s : SpeechSegment) : float :=
  if segmentIsNegative s then (- segmentSentimentScore s)%float
  else segmentSentimentScore s.

(** The fields of a segment that the classifier never writes. *)
Definition transcript_fields (s : SpeechSegment)
  : float * float * string * string * string * list Word.t * list Guardrail.t :=
  (segmentStartTime s, segmentEndTime s, segmentSpeaker s, segmentText s,
   segmentLanguage s, segmentConfidence s, segmentContentModeration s).

(** Turn A once the classifier has found it negative, with the score
    0.7. *)
Definition turn_A_negative : SpeechSegment :=
  set_sentiment turn_A false true 0.7.

(** Drawing calls that always succeed. *)
Definition draws_anything
  : float -> float -> Z -> list float -> list float -> nat -> result unit :=
  fun _ _ _ _ _ _ => Ok tt.

Definition finishes_anything : float -> result unit := fun _ => Ok tt.


(** The topics that start at a time, and the runs that mark them. *)
Definition starts_at (start_in_millis : Z) (d : Topic.t) : bool :=
  (Topic.start_time d =? start_in_millis)%Z.

Definition marker_runs (topics : list Topic.t) : list run :=
  flat_map (fun d => [TopicMarker (Topic.index d + 1); Space]) topics.

Definition is_marker (r : run) : bool :=
  match r with TopicMarker _ => true | _ => false end.

(** The start time of a segment in milliseconds, as the writer computes
    it; 0 stands for a time that [int] refuses. *)
Definition start_millis (h : store) (segment : ref) : Z :=
  match py_int (segmentStartTime (h segment) * 1000.0)%float with
  | Ok n => n
  | Raise _ => 0%Z
  end.

(** The table of the transcript, told row by row: a row starts with the
    markers of the topics that start at its start time and that no earlier
    row has marked, and goes on with the words of its segment. *)
Fixpoint topic_rows (h : store) (speech_segments : list ref)
  (timed_topics : list Topic.t) : list row :=
  match speech_segments with
  | [] => []
  | segment :: rest =>
      {| row_segment := segment;
         row_speaker := segmentSpeaker (h segment);
         row_content :=
           marker_runs (filter (starts_at (start_millis h segment)) timed_topics)
           ++ map (fun eachWord =>
                     WordRun (Word.text eachWord) (Word.confidence eachWord))
                (segmentConfidence (h segment)) |}
      :: topic_rows h rest
           (filter (fun d => negb (starts_at (start_millis h segment) d))
              timed_topics)
  end.

(** The topics that start with one of the segments. *)
Definition starts_with_one (h : store) (speech_segments : list ref)
  (d : Topic.t) : bool :=
  existsb (fun segment => starts_at (start_millis h segment) d) speech_segments.

(** Two topics that start with turn A, and one that starts nowhere. *)
Definition topics_at_start : list Topic.t :=
  [ {| Topic.start_time := 8000; Topic.index := 0 |};
    {| Topic.start_time := 700; Topic.index := 1 |};
    {| Topic.start_time := 8000; Topic.index := 2 |} ].

(** A turn D of the same speaker, long after turn B. *)
Definition turn_D : SpeechSegment :=
  segment_of 20.0 21.0 "spk_0" "Goodbye." "en" [word "Goodbye." 20.0 21.0] [].


Definition missing_item_data : bda_data :=
  {| audio_segments := [hello_turn "Hello." [0; 2]%Z];
     audio_items := hello_items;
     content_moderation := None |}.

(** The turn "Hello." with two moderation categories, and arguments that
    ask for those of confidence 0.5 at least. *)
Definition moderated_data : bda_data :=
  {| audio_segments := [hello_turn "Hello." [0; 1]%Z];
     audio_items := hello_items;
     content_moderation :=
       Some [[ {| Guardrail.category := "insult"; Guardrail.confidence := 0.3 |};
               {| Guardrail.category := "profanity"; Guardrail.confidence := 0.9 |} ]] |}.

Definition guardrails_at_half : cli_args :=
  {| guardrailCheck := "on"; guardrailLimit := 0.5; sentiment := "off" |}.

(** The float that holds a count of milliseconds. *)
Definition ms_float (n : Z) : float := PrimFloat.of_uint63 (Uint63.of_Z n).

(** A start time of [n] milliseconds as the Turn Builder stores it and as
    the writer reads it back. *)
Definition millis_round_trip (n : Z) : result Z :=
  py_int ((ms_float n / 1000.0) * 1000.0)%float.

(** The counts below 2048 that do not come back: the odd ones from 1001 to
    1023, and 2002, 2006, ..., 2046. *)
Definition loses_a_millisecond (n : Z) : bool :=
  ((1000 <? n) && (n <? 1024) && Z.odd n
   || (2000 <? n) && (n <? 2048) && (n mod 4 =? 2))%Z.

(** The numbers below [n] at which [f] is false. *)
Fixpoint failures_below (f : Z -> bool) (n : nat) : list Z :=
  match n with
  | O => []
  | S k =>
      failures_below f k ++ (if f (Z.of_nat k) then [] else [Z.of_nat k])
  end.

(** * Properties *)

(** ** The store and the error monad *)

Lemma upd_same (h : store) (r : ref) (s : SpeechSegment) : upd h r s r = s.
Proof. unfold upd. now rewrite Nat.eqb_refl. Qed.

Lemma upd_other (h : store) (r q : ref) (s : SpeechSegment) :
  q <> r -> upd h r s q = h q.
Proof. intros Hq. unfold upd. now apply Nat.eqb_neq in Hq as ->. Qed.

Lemma bind_Ok {A B : Type} (m : result A) (k : A -> result B) (b : B) :
  bind m k = Ok b -> exists a, m = Ok a /\ k a = Ok b.
Proof. destruct m as [a|e]; simpl; [eauto | discriminate]. Qed.

Lemma last_ref_snoc (l : list ref) (r : ref) : last_ref (l ++ [r]) = Some r.
Proof. unfold last_ref. now rewrite rev_app_distr. Qed.

Lemma last_ref_Some (l : list ref) (p : ref) :
  last_ref l = Some p -> exists o, l = o ++ [p].
Proof.
  unfold last_ref. intros H. destruct (rev l) as [|x t] eqn:E; [discriminate|].
  injection H as ->. exists (rev t).
  rewrite <- (rev_involutive l), E. reflexivity.
Qed.

Lemma last_ref_None (l : list ref) : last_ref l = None -> l = [].
Proof.
  unfold last_ref. destruct (rev l) eqn:E; [|discriminate].
  intros _. rewrite <- (rev_involutive l), E. reflexivity.
Qed.

(** ** Comparisons of binary64 floats *)

Lemma SFcompare_antisym (a b : spec_float) :
  SFcompare b a = option_map CompOpp (SFcompare a b).
Proof.
  destruct a as [sa|sa| |sa ma ea], b as [sb|sb| |sb mb eb]; simpl;
    try reflexivity;
    try (destruct sa; reflexivity); try (destruct sb; reflexivity);
    try (destruct sa, sb; reflexivity).
  change (Pos.compare_cont Eq mb ma) with (mb ?= ma)%positive.
  change (Pos.compare_cont Eq ma mb) with (ma ?= mb)%positive.
  rewrite (Z.compare_antisym ea eb), (Pos.compare_antisym ma mb).
  destruct sa, sb; simpl; try reflexivity;
    destruct (ea ?= eb)%Z; simpl; try reflexivity;
    now rewrite ?CompOpp_involutive.
Qed.

Lemma is_nan_false (x : float) : is_nan x = false -> Prim2SF x <> S754_nan.
Proof.
  unfold is_nan. rewrite eqb_spec. unfold SFeqb. intros H E. rewrite E in H.
  discriminate.
Qed.

(** Between numbers, [not (y <= x)] is [x < y]. *)
Lemma not_leb_ltb (x y : float) :
  is_nan x = false -> is_nan y = false ->
  negb (y <=? x)%float = (x <? y)%float.
Proof.
  intros Hx Hy. apply is_nan_false in Hx, Hy.
  rewrite leb_spec, ltb_spec. unfold SFleb, SFltb.
  rewrite (SFcompare_antisym (Prim2SF x) (Prim2SF y)).
  destruct (Prim2SF x) as [sa|sa| |sa ma ea] eqn:Ex; try congruence;
    destruct (Prim2SF y) as [sb|sb| |sb mb eb] eqn:Ey; try congruence.
  all: match goal with
       | |- context [SFcompare ?a ?b] =>
           destruct (SFcompare a b) as [[| |]|] eqn:E
       end; try reflexivity.
  all: simpl in E; try discriminate.
  all: try (destruct sa; discriminate); try (destruct sb; discriminate).
Qed.

(** Whatever is below a float is a number. *)
Lemma ltb_not_nan (x y : float) : (x <? y)%float = true -> is_nan x = false.
Proof.
  rewrite ltb_spec. unfold is_nan. rewrite eqb_spec. unfold SFltb, SFeqb.
  destruct (Prim2SF x) as [sa|sa| |sa ma ea]; simpl; try reflexivity.
  - now destruct sa.
  - discriminate.
  - destruct sa; rewrite Z.compare_refl;
      change (Pos.compare_cont Eq ma ma) with (ma ?= ma)%positive;
      now rewrite Pos.compare_refl.
Qed.

Lemma NoDup_app_disjoint (l1 l2 : list ref) (a : ref) :
  NoDup (l1 ++ l2) -> In a l1 -> In a l2 -> False.
Proof.
  induction l1 as [|x l1 IH]; simpl; intros Hnd H1 H2; [easy|].
  apply NoDup_cons_iff in Hnd as [Hx Hnd]. destruct H1 as [->|H1]; [|auto].
  apply Hx, in_or_app. now right.
Qed.

(** ** The Segment Merger *)

(** Reads of a store after a few in-place updates. *)
Ltac store_simpl :=
  repeat (rewrite upd_same || rewrite upd_other by congruence).

(** The two ways an iteration of the loop can go. *)
Lemma merge_step_Ok (r : ref) (st st' : merge_state) (h h' : store) :
  merge_step r st h = Ok (st', h') ->
  (starts_new_segment h st r = Ok true
   /\ st' = {| outputSegmentList := outputSegmentList st ++ [r];
               lastSpeaker := segmentSpeaker (h r);
               lastLanguage := segmentLanguage (h r);
               lastSegment := Some r |}
   /\ h' = h)
  \/ (exists p, starts_new_segment h st r = Ok false
        /\ lastSegment st = Some p /\ st' = st /\ absorb h p r = Ok h').
Proof.
  unfold merge_step. intros H. apply bind_Ok in H as ([|] & Hn & H).
  - left. injection H as <- <-. auto.
  - right. destruct (lastSegment st) as [p|]; [|discriminate].
    apply bind_Ok in H as (h'' & Ha & H). injection H as <- <-. eauto.
Qed.

(** With a previous output segment in place, the test of the loop is the
    negation of the four continuation conditions. *)
Lemma starts_new_segment_continues (h : store) (st : merge_state) (p r : ref) :
  lastSegment st = Some p ->
  lastSpeaker st = segmentSpeaker (h p) ->
  lastLanguage st = segmentLanguage (h p) ->
  starts_new_segment h st r = Ok (negb (continues (h p) (h r))).
Proof.
  intros Hp Hs Hl. unfold starts_new_segment, continues, gap. rewrite Hp, Hs, Hl.
  destruct (segmentSpeaker (h r) =? segmentSpeaker (h p))%string; simpl; [|reflexivity].
  destruct (START_NEW_SEGMENT_DELAY <=? _)%float; simpl; [reflexivity|].
  destruct (segmentLanguage (h r) =? segmentLanguage (h p))%string; simpl; [|reflexivity].
  now destruct (nonempty _).
Qed.

(** The test of the loop and the conditions of the specification agree
    whenever the gap is a number, and a segment that meets the conditions
    of the specification passes the test of the loop. *)
Lemma continues_spec_eq (previous segment : SpeechSegment) :
  is_nan (gap previous segment) = false ->
  continues previous segment = continues_spec previous segment.
Proof.
  intros Hn. unfold continues, continues_spec.
  now rewrite (not_leb_ltb _ START_NEW_SEGMENT_DELAY Hn eq_refl).
Qed.

Lemma continues_spec_true (previous segment : SpeechSegment) :
  continues_spec previous segment = true -> continues previous segment = true.
Proof.
  intros H. rewrite continues_spec_eq; [exact H|].
  unfold continues_spec in H. rewrite !andb_true_iff in H.
  destruct H as [[[_ H] _] _]. exact (ltb_not_nan _ _ H).
Qed.

(** Absorption of a segment into a different object. *)
Lemma absorb_Ok (h h' : store) (p r : ref) :
  p <> r -> absorb h p r = Ok h' ->
  segmentConfidence (h r) <> []
  /\ h' p = merged (h p) (h r)
  /\ h' r = spaced (h r)
  /\ forall q, q <> p -> q <> r -> h' q = h q.
Proof.
  intros Hpr. unfold absorb. store_simpl.
  destruct (segmentConfidence (h r)) as [|w ws] eqn:E; [discriminate|].
  intros H. injection H as <-. split; [discriminate|].
  split; [|split].
  - store_simpl. unfold merged, spaced. rewrite E. reflexivity.
  - store_simpl. unfold spaced. rewrite E. reflexivity.
  - intros q Hq1 Hq2. now store_simpl.
Qed.

Lemma absorb_returns (h : store) (p r : ref) :
  segmentConfidence (h r) <> [] -> exists h', absorb h p r = Ok h'.
Proof.
  intros Hne. unfold absorb.
  destruct (Nat.eq_dec r p) as [->|Hrp].
  - store_simpl. simpl.
    destruct (segmentConfidence (h p)); [congruence | eauto].
  - store_simpl.
    destruct (segmentConfidence (h r)); [congruence | eauto].
Qed.

Lemma absorb_empty (h : store) (p r : ref) :
  segmentConfidence (h r) = [] -> absorb h p r = Raise IndexError.
Proof.
  intros He. unfold absorb.
  destruct (Nat.eq_dec r p) as [->|Hrp].
  - store_simpl. simpl. now rewrite He.
  - store_simpl. now rewrite He.
Qed.

(** The merger never writes the start time, the speaker, the language or
    the moderation flags of any object. *)
Lemma upd_static (h : store) (r q : ref) (s : SpeechSegment) :
  static s = static (h r) -> static (upd h r s q) = static (h q).
Proof.
  intros Hs. unfold upd. destruct (Nat.eqb_spec q r); subst; auto.
Qed.

Lemma absorb_static (h h' : store) (p r q : ref) :
  absorb h p r = Ok h' -> static (h' q) = static (h q).
Proof.
  unfold absorb.
  destruct (segmentConfidence _) as [|w ws]; [discriminate|].
  intros H. injection H as <-.
  now rewrite !upd_static by reflexivity.
Qed.

Lemma merge_step_static (r : ref) (st st' : merge_state) (h h' : store) (q : ref) :
  merge_step r st h = Ok (st', h') -> static (h' q) = static (h q).
Proof.
  intros H. apply merge_step_Ok in H as [(_ & _ & ->)|(p & _ & _ & _ & Ha)].
  - reflexivity.
  - eapply absorb_static; eauto.
Qed.

Lemma merge_step_tail_ok (r : ref) (st st' : merge_state) (h h' : store) :
  tail_ok h st -> merge_step r st h = Ok (st', h') -> tail_ok h' st'.
Proof.
  intros [Hl Hs] H. pose proof (fun q => merge_step_static _ _ _ _ _ q H) as Hst.
  apply merge_step_Ok in H as [(_ & -> & ->)|(p & _ & Hp & -> & Ha)].
  - split; simpl; [now rewrite last_ref_snoc | auto].
  - split; [assumption|]. rewrite Hp in *.
    specialize (Hst p). unfold static in Hst. injection Hst as _ -> -> _. assumption.
Qed.

(** An invariant of the loop body holds at the end of the loop. *)
Lemma merge_loop_invariant (P : list ref -> merge_state -> store -> Prop) :
  (forall r rest st h st' h',
      P (r :: rest) st h -> merge_step r st h = Ok (st', h') -> P rest st' h') ->
  forall l st h st' h',
    P l st h -> merge_loop l st h = Ok (st', h') -> P [] st' h'.
Proof.
  intros Hstep. induction l as [|r l IH]; simpl; intros st h st' h' HP H.
  - now injection H as <- <-.
  - apply bind_Ok in H as ([st1 h1] & H1 & H). eauto.
Qed.

Lemma merge_loop_app (l1 l2 : list ref) (st : merge_state) (h : store) :
  merge_loop (l1 ++ l2) st h
  = bind (merge_loop l1 st h) (fun '(st', h') => merge_loop l2 st' h').
Proof.
  revert st h. induction l1 as [|r l1 IH]; simpl; intros st h; [reflexivity|].
  destruct (merge_step r st h) as [[st1 h1]|e]; simpl; [apply IH | reflexivity].
Qed.

Lemma merge_loop_static (l : list ref) (st st' : merge_state) (h h' : store) (q : ref) :
  merge_loop l st h = Ok (st', h') -> static (h' q) = static (h q).
Proof.
  intros H.
  apply (merge_loop_invariant (fun _ _ h1 => static (h1 q) = static (h q)))
    with (l:=l) (st:=st) (h:=h) (st':=st'); auto.
  intros r rest st0 h0 st1 h1 HP Hs. rewrite <- HP. eapply merge_step_static; eauto.
Qed.

Lemma merge_loop_tail_ok (l : list ref) (st st' : merge_state) (h h' : store) :
  tail_ok h st -> merge_loop l st h = Ok (st', h') -> tail_ok h' st'.
Proof.
  intros Ht H.
  apply (merge_loop_invariant (fun _ st1 h1 => tail_ok h1 st1))
    with (l:=l) (st:=st) (h:=h); auto.
  intros. eapply merge_step_tail_ok; eauto.
Qed.

Lemma tail_ok_init (h : store) : tail_ok h merge_init.
Proof. split; simpl; auto. Qed.

(** Every iteration extends the output list or leaves it alone, and the
    list only ever holds segments of the input. *)
Lemma merge_loop_output (l : list ref) (st st' : merge_state) (h h' : store) :
  merge_loop l st h = Ok (st', h') ->
  exists o, outputSegmentList st' = outputSegmentList st ++ o /\ incl o l.
Proof.
  revert st h. induction l as [|r l IH]; simpl; intros st h H.
  - injection H as <- <-. exists []. split; [now rewrite app_nil_r | easy].
  - apply bind_Ok in H as ([st1 h1] & H1 & H).
    apply IH in H as (o & -> & Ho).
    apply merge_step_Ok in H1 as [(_ & -> & _)|(p & _ & _ & -> & _)]; simpl.
    + exists (r :: o). split; [now rewrite <- app_assoc|].
      intros x [->|Hx]; [now left | right; auto].
    + exists o. split; [reflexivity | now apply incl_tl].
Qed.

Lemma merge_output_incl (h h' : store) (l out : list ref) :
  merge_speaker_segments h l = Ok (out, h') -> incl out l.
Proof.
  unfold merge_speaker_segments. intros H.
  apply bind_Ok in H as ([st h1] & H1 & H). injection H as <- <-.
  apply merge_loop_output in H1 as (o & -> & Ho). exact Ho.
Qed.

(** An iteration writes only to the segment it visits and to
    [lastSegment]. *)
Lemma absorb_frame (h h' : store) (p r q : ref) :
  absorb h p r = Ok h' -> q <> p -> q <> r -> h' q = h q.
Proof.
  unfold absorb. destruct (segmentConfidence _); [discriminate|].
  intros H Hp Hr. injection H as <-. now store_simpl.
Qed.

Lemma absorb_Ok_nonempty (h h' : store) (p r : ref) :
  absorb h p r = Ok h' -> segmentConfidence (h r) <> [].
Proof.
  intros H He. now rewrite (absorb_empty h p r He) in H.
Qed.

Lemma merge_loop_frame (l : list ref) (st st' : merge_state) (h h' : store) (q : ref) :
  merge_loop l st h = Ok (st', h') ->
  ~ In q l -> lastSegment st <> Some q -> h' q = h q.
Proof.
  revert st h. induction l as [|r l IH]; simpl; intros st h H Hq Hl.
  - now injection H as <- <-.
  - apply bind_Ok in H as ([st1 h1] & H1 & H).
    apply merge_step_Ok in H1 as [(_ & -> & ->)|(p & _ & Hp & -> & Ha)].
    + apply (IH _ _ H); simpl; [tauto | intros [=]; subst; tauto].
    + rewrite (IH _ _ H) by tauto.
      apply (absorb_frame _ _ _ _ _ Ha); [congruence|].
      intros ->. apply Hq. now left.
Qed.

(** *** C3: when a segment is absorbed *)

(** The run over [l1 ++ [r]] is the run over [l1] followed by one iteration
    for [r]. *)
Lemma merge_snoc (h : store) (l1 : list ref) (r : ref) :
  merge_speaker_segments h (l1 ++ [r])
  = bind (merge_loop l1 merge_init h)
      (fun '(st1, h1) =>
         bind (merge_step r st1 h1) (fun '(st2, h2) => Ok (outputSegmentList st2, h2))).
Proof.
  unfold merge_speaker_segments. rewrite merge_loop_app.
  destruct (merge_loop l1 merge_init h) as [[st1 h1]|e]; simpl; [|reflexivity].
  now destruct (merge_step r st1 h1) as [[st2 h2]|e].
Qed.

Lemma merge_speaker_segments_Ok (h h' : store) (l out : list ref) :
  merge_speaker_segments h l = Ok (out, h') ->
  exists st, merge_loop l merge_init h = Ok (st, h')
             /\ outputSegmentList st = out /\ tail_ok h' st.
Proof.
  unfold merge_speaker_segments. intros H.
  apply bind_Ok in H as ([st h1] & H1 & H). injection H as <- <-.
  exists st. repeat split; auto.
  - apply (merge_loop_tail_ok _ _ _ _ _ (tail_ok_init h) H1).
  - apply (merge_loop_tail_ok _ _ _ _ _ (tail_ok_init h) H1).
Qed.

(** The general law behind C3: after any run that has produced a previous
    output segment [p], the next segment [r] is absorbed into [p] exactly
    when the four continuation conditions hold between them, and then [p]
    and [r] are rewritten as the specification says; otherwise [r] is
    appended and nothing is written. *)
Lemma merger_next_segment (h : store) (l1 : list ref) (r : ref)
  (out1 : list ref) (h1 : store) (p : ref) :
  NoDup (l1 ++ [r]) ->
  merge_speaker_segments h l1 = Ok (out1, h1) ->
  last_ref out1 = Some p ->
  (continues (h1 p) (h1 r) = true ->
   segmentConfidence (h1 r) <> [] ->
   exists h2,
     merge_speaker_segments h (l1 ++ [r]) = Ok (out1, h2)
     /\ h2 p = merged (h1 p) (h1 r)
     /\ h2 r = spaced (h1 r)
     /\ forall q, q <> p -> q <> r -> h2 q = h1 q)
  /\ (continues (h1 p) (h1 r) = false ->
      merge_speaker_segments h (l1 ++ [r]) = Ok (out1 ++ [r], h1)).
Proof.
  intros Hnd Hm Hp.
  assert (Hpr : p <> r).
  { intros ->. apply NoDup_remove_2 in Hnd. rewrite app_nil_r in Hnd.
    apply Hnd. apply (merge_output_incl _ _ _ _ Hm).
    apply last_ref_Some in Hp as (o & ->). apply in_or_app. right. now left. }
  apply merge_speaker_segments_Ok in Hm as (st1 & Hl & <- & Ht & Hs).
  rewrite <- Ht in Hp. rewrite Hp in Hs. destruct Hs as [Hs1 Hs2].
  pose proof (starts_new_segment_continues h1 st1 p r Hp Hs1 Hs2) as Hn.
  rewrite merge_snoc, Hl. simpl. unfold merge_step. rewrite Hn, Hp. simpl.
  split; intros Hc; rewrite Hc; simpl.
  - intros Hne. destruct (absorb_returns h1 p r Hne) as [h2 Ha].
    rewrite Ha. simpl. exists h2. split; [reflexivity|].
    apply (absorb_Ok _ _ _ _ Hpr) in Ha as (_ & H1 & H2 & H3). auto.
  - reflexivity.
Qed.

(** C3.  After any run that has left a previous output segment [p], the
    next segment [r] is absorbed into [p] exactly when the four
    continuation conditions hold between them (same speaker, gap strictly
    below 2.0 seconds, same language, no moderation flag on [r]): then the
    output list stays as it is, [p] takes the end time of [r], its text
    grows by a space and the text of [r], the first token of [r] gets a
    leading space and the tokens of [r] follow those of [p].  Otherwise [r]
    is appended to the output list and no segment is written.  (The gap is
    a number as soon as the two times are; absorption rewrites the first
    token of [r], which [r] must have.) *)
Theorem merger_absorbs_iff_continues (h : store) (l1 : list ref) (r : ref)
  (out1 : list ref) (h1 : store) (p : ref) :
  NoDup (l1 ++ [r]) ->
  merge_speaker_segments h l1 = Ok (out1, h1) ->
  last_ref out1 = Some p ->
  (continues_spec (h1 p) (h1 r) = true ->
   segmentConfidence (h1 r) <> [] ->
   exists h2,
     merge_speaker_segments h (l1 ++ [r]) = Ok (out1, h2)
     /\ h2 p = merged (h1 p) (h1 r)
     /\ h2 r = spaced (h1 r)
     /\ forall q, q <> p -> q <> r -> h2 q = h1 q)
  /\ (continues_spec (h1 p) (h1 r) = false ->
      is_nan (gap (h1 p) (h1 r)) = false ->
      merge_speaker_segments h (l1 ++ [r]) = Ok (out1 ++ [r], h1)).
Proof.
  intros Hnd Hm Hp.
  destruct (merger_next_segment h l1 r out1 h1 p Hnd Hm Hp) as [Ha Hb].
  split.
  - intros Hc. apply Ha. now apply continues_spec_true.
  - intros Hc Hn. apply Hb. now rewrite continues_spec_eq.
Qed.

(** *** C6: the first segment *)

Lemma merge_step_first (h : store) (r : ref) :
  merge_step r merge_init h
  = if (segmentSpeaker (h r) =? "")%string then Raise AttributeError
    else Ok ({| outputSegmentList := [r];
                lastSpeaker := segmentSpeaker (h r);
                lastLanguage := segmentLanguage (h r);
                lastSegment := Some r |}, h).
Proof.
  unfold merge_step, starts_new_segment. simpl.
  now destruct (segmentSpeaker (h r) =? "")%string.
Qed.

(** C6, where the code departs from it.  A first segment whose speaker
    label is the empty string does not start the output list: the label
    equals the initial [lastSpeaker], the [or] goes on to read
    [lastSegment.segmentEndTime] on [None], and the merger raises
    [AttributeError]. *)
Theorem merge_first_empty_speaker (h : store) (r : ref) (l : list ref) :
  segmentSpeaker (h r) = "" ->
  merge_speaker_segments h (r :: l) = Raise AttributeError.
Proof.
  intros He. unfold merge_speaker_segments. simpl.
  rewrite merge_step_first, He. reflexivity.
Qed.

(** With any other label the first segment opens the output list. *)
Lemma merge_first (h h' : store) (r : ref) (l out : list ref) :
  merge_speaker_segments h (r :: l) = Ok (out, h') ->
  segmentSpeaker (h r) <> "" /\ exists o, out = r :: o.
Proof.
  unfold merge_speaker_segments. simpl. rewrite merge_step_first.
  destruct (String.eqb_spec (segmentSpeaker (h r)) ""); simpl; [discriminate|].
  intros H. apply bind_Ok in H as ([st h1] & H1 & H). injection H as <- <-.
  apply merge_loop_output in H1 as (o & -> & _). simpl. eauto.
Qed.

Lemma merge_first_returns (h : store) (r : ref) :
  segmentSpeaker (h r) <> "" -> merge_speaker_segments h [r] = Ok ([r], h).
Proof.
  intros Hs. unfold merge_speaker_segments. simpl. rewrite merge_step_first.
  now destruct (String.eqb_spec (segmentSpeaker (h r)) "").
Qed.

(** *** C1: segments that carry moderation flags *)

Lemma flagged_starts_new (h : store) (st : merge_state) (r p : ref) :
  nonempty (segmentContentModeration (h r)) = true ->
  lastSegment st = Some p ->
  starts_new_segment h st r = Ok true.
Proof.
  intros Hf Hp. unfold starts_new_segment. rewrite Hp, Hf.
  destruct (negb _); [reflexivity|]. now rewrite !orb_true_r.
Qed.

Lemma flagged_never_continues (h : store) (st : merge_state) (r : ref) :
  nonempty (segmentContentModeration (h r)) = true ->
  starts_new_segment h st r <> Ok false.
Proof.
  intros Hf. unfold starts_new_segment. rewrite Hf.
  destruct (negb _); [discriminate|].
  destruct (lastSegment st); [|discriminate]. now rewrite !orb_true_r.
Qed.

Lemma static_moderation (s s' : SpeechSegment) :
  static s = static s' -> segmentContentModeration s = segmentContentModeration s'.
Proof. unfold static. now intros [= _ _ _ ->]. Qed.

Lemma merge_loop_nonempty (l : list ref) (h h' : store) (st : merge_state) :
  l <> [] -> merge_loop l merge_init h = Ok (st, h') ->
  exists p, lastSegment st = Some p.
Proof.
  intros Hl H.
  pose proof (merge_loop_tail_ok _ _ _ _ _ (tail_ok_init h) H) as [Ht _].
  destruct l as [|r l]; [congruence|]. simpl in H. rewrite merge_step_first in H.
  destruct (segmentSpeaker (h r) =? "")%string; [discriminate|]. simpl in H.
  apply merge_loop_output in H as (o & Ho & _). simpl in Ho.
  rewrite Ht, Ho. unfold last_ref. simpl.
  destruct (rev o ++ [r]) eqn:E; [|eauto].
  now apply app_eq_nil in E as [_ [=]].
Qed.

(** C1 (amended).  A segment that carries moderation flags is never merged
    into the segment before it: whatever its speaker, its language and the
    gap, it opens a new output entry and nothing is written to the entries
    built before it.  (A later segment without flags may still be merged
    into it.) *)
Theorem flagged_segment_opens_entry (h : store) (l1 l2 : list ref) (r : ref)
  (out1 : list ref) (h1 : store) :
  NoDup (l1 ++ r :: l2) ->
  nonempty (segmentContentModeration (h r)) = true ->
  merge_speaker_segments h l1 = Ok (out1, h1) ->
  (l1 <> [] -> merge_speaker_segments h (l1 ++ [r]) = Ok (out1 ++ [r], h1))
  /\ (forall out h',
         merge_speaker_segments h (l1 ++ r :: l2) = Ok (out, h') ->
         (exists out2, out = out1 ++ r :: out2)
         /\ forall q, In q out1 -> h' q = h1 q).
Proof.
  intros Hnd Hf Hm.
  pose proof (merge_output_incl _ _ _ _ Hm) as Hincl.
  apply merge_speaker_segments_Ok in Hm as (st1 & Hl & <- & Ht).
  assert (Hf1 : nonempty (segmentContentModeration (h1 r)) = true).
  { now rewrite (static_moderation _ _ (merge_loop_static _ _ _ _ _ r Hl)). }
  split.
  - intros Hne. destruct (merge_loop_nonempty _ _ _ _ Hne Hl) as [p Hp].
    rewrite merge_snoc, Hl. simpl. unfold merge_step.
    now rewrite (flagged_starts_new _ _ _ _ Hf1 Hp).
  - intros out h' H. unfold merge_speaker_segments in H.
    rewrite merge_loop_app, Hl in H. simpl in H.
    apply bind_Ok in H as ([st' h''] & H & Heq). injection Heq as <- <-.
    apply bind_Ok in H as ([st2 h2] & Hs & H).
    apply merge_step_Ok in Hs as [(_ & -> & ->)|(p & Hn & _)];
      [|now apply flagged_never_continues in Hn].
    pose proof (merge_loop_output _ _ _ _ _ H) as (o & Ho & _). simpl in Ho.
    split.
    + exists o. now rewrite Ho, <- app_assoc.
    + intros q Hq. apply (merge_loop_frame _ _ _ _ _ q H).
      * intros Hq2. apply (NoDup_app_disjoint _ _ q Hnd); [auto | now right].
      * simpl. intros [= ->].
        apply (NoDup_app_disjoint _ _ q Hnd); [auto | now left].
Qed.

(** *** C7: the merger on its own output *)

Lemma continues_ext (a a' b b' : SpeechSegment) :
  static a' = static a -> segmentEndTime a' = segmentEndTime a ->
  static b' = static b ->
  continues a' b' = continues a b.
Proof.
  unfold static, continues, gap. intros [= _ -> -> _] -> [= -> -> -> ->]. reflexivity.
Qed.

(** Writing to the last segment of a list, and to segments outside it,
    does not unsettle the list. *)
Lemma settled_from_change (h h' : store) (p : ref) :
  (forall q, static (h' q) = static (h q)) ->
  (forall q, q <> p -> segmentEndTime (h' q) = segmentEndTime (h q)) ->
  forall l x, ~ In p (removelast (x :: l)) ->
              settled_from h x l -> settled_from h' x l.
Proof.
  intros Hst He. induction l as [|y l IH]; intros x Hp; simpl; [easy|].
  intros [Hc Hs]. change (removelast (x :: y :: l)) with (x :: removelast (y :: l)) in Hp.
  split.
  - rewrite <- Hc. apply continues_ext; auto.
    apply He. intros ->. apply Hp. now left.
  - apply IH; [|exact Hs]. intros Hq. apply Hp. now right.
Qed.

Lemma settled_change (h h' : store) (p : ref) (o : list ref) :
  (forall q, static (h' q) = static (h q)) ->
  (forall q, q <> p -> segmentEndTime (h' q) = segmentEndTime (h q)) ->
  ~ In p o ->
  settled h (o ++ [p]) -> settled h' (o ++ [p]).
Proof.
  intros Hst He Hp. unfold settled.
  destruct (o ++ [p]) as [|x l] eqn:E; [easy|].
  intros [Hs Hf]. split.
  - specialize (Hst x). unfold static in Hst. injection Hst as _ -> _ _. exact Hs.
  - apply (settled_from_change h h' p Hst He); [|exact Hf].
    rewrite <- E, removelast_last. exact Hp.
Qed.

Lemma settled_from_snoc (h : store) (l : list ref) (x r : ref) :
  settled_from h x l ->
  (forall p, last_ref (x :: l) = Some p -> continues (h p) (h r) = false) ->
  settled_from h x (l ++ [r]).
Proof.
  revert x. induction l as [|y l IH]; simpl; intros x Hs Hc.
  - split; [now apply Hc | exact I].
  - destruct Hs as [H1 H2]. split; [exact H1|].
    apply IH; [exact H2|]. intros p Hp. apply Hc.
    unfold last_ref in *. simpl in *.
    destruct (rev l ++ [y]) eqn:E; [now apply app_eq_nil in E as [_ [=]]|].
    simpl. exact Hp.
Qed.

Lemma settled_snoc (h : store) (out : list ref) (r : ref) :
  settled h out ->
  (out = [] -> segmentSpeaker (h r) <> "") ->
  (forall p, last_ref out = Some p -> continues (h p) (h r) = false) ->
  settled h (out ++ [r]).
Proof.
  destruct out as [|x l]; simpl; intros Hs H0 Hc.
  - split; [now apply H0 | exact I].
  - destruct Hs as [H1 H2]. split; [exact H1|]. now apply settled_from_snoc.
Qed.

(** What one iteration tells about the segment it appends. *)
Lemma starts_new_segment_true (h : store) (st : merge_state) (r : ref) :
  tail_ok h st ->
  starts_new_segment h st r = Ok true ->
  (outputSegmentList st = [] -> segmentSpeaker (h r) <> "")
  /\ (forall p, last_ref (outputSegmentList st) = Some p ->
                continues (h p) (h r) = false).
Proof.
  intros [Ht Hs] Hn. split.
  - intros He. rewrite He in Ht. change (last_ref []) with (@None ref) in Ht.
    rewrite Ht in Hs. destruct Hs as [Hs _].
    unfold starts_new_segment in Hn. rewrite Hs, Ht in Hn.
    destruct (String.eqb_spec (segmentSpeaker (h r)) ""); simpl in Hn;
      [discriminate | assumption].
  - intros p Hp. rewrite <- Ht in Hp. rewrite Hp in Hs. destruct Hs as [Hs Hl].
    rewrite (starts_new_segment_continues h st p r Hp Hs Hl) in Hn.
    injection Hn as Hn. now apply negb_true_iff in Hn.
Qed.

(** The output list of any run over distinct segments is settled in the
    final store. *)
Lemma merge_loop_settled (l : list ref) (st st' : merge_state) (h h' : store) :
  NoDup (outputSegmentList st ++ l) -> tail_ok h st ->
  settled h (outputSegmentList st) ->
  merge_loop l st h = Ok (st', h') ->
  settled h' (outputSegmentList st').
Proof.
  intros Hnd Ht Hs H.
  apply (merge_loop_invariant
           (fun rest st1 h1 =>
              NoDup (outputSegmentList st1 ++ rest) /\ tail_ok h1 st1
              /\ settled h1 (outputSegmentList st1)))
    with (l:=l) (st:=st) (h:=h) (st':=st') (h':=h'); auto.
  clear. intros r rest st h st' h' (Hnd & Ht & Hs) Hstep.
  pose proof (merge_step_tail_ok _ _ _ _ _ Ht Hstep) as Ht'.
  pose proof (fun q => merge_step_static _ _ _ _ _ q Hstep) as Hst.
  split; [|split; [exact Ht'|]];
    apply merge_step_Ok in Hstep as [(Hn & -> & ->)|(p & _ & Hp & -> & Ha)]; simpl.
  - now rewrite <- app_assoc.
  - apply NoDup_remove_1 in Hnd. exact Hnd.
  - destruct (starts_new_segment_true _ _ _ Ht Hn) as [H0 Hc].
    now apply settled_snoc.
  - destruct Ht as [Hl _]. rewrite Hp in Hl. symmetry in Hl.
    apply last_ref_Some in Hl as (o & Ho). rewrite Ho in *.
    assert (Hpr : p <> r).
    { intros ->. apply (NoDup_app_disjoint _ _ r Hnd);
        [apply in_or_app; right; now left | now left]. }
    apply (absorb_Ok _ _ _ _ Hpr) in Ha as (_ & _ & Hr & Hfr).
    apply (settled_change h h' p o); auto.
    + intros q Hq. destruct (Nat.eq_dec q r) as [->|Hqr]; [|now rewrite Hfr].
      rewrite Hr. unfold spaced. now destruct (segmentConfidence (h r)).
    + apply NoDup_app_remove_r in Hnd. apply NoDup_remove_2 in Hnd.
      now rewrite app_nil_r in Hnd.
Qed.

(** On a settled list the merger appends every segment and writes nothing. *)
Lemma merge_loop_settled_from (h : store) (l : list ref) (st : merge_state) (p : ref) :
  tail_ok h st -> lastSegment st = Some p -> settled_from h p l ->
  exists st', merge_loop l st h = Ok (st', h)
              /\ outputSegmentList st' = outputSegmentList st ++ l.
Proof.
  revert st p. induction l as [|r l IH]; simpl; intros st p Ht Hp Hs.
  - exists st. now rewrite app_nil_r.
  - destruct Hs as [Hc Hs]. pose proof Ht as [_ Hsl]. rewrite Hp in Hsl.
    destruct Hsl as [Hsp Hla].
    unfold merge_step at 1.
    rewrite (starts_new_segment_continues h st p r Hp Hsp Hla), Hc. simpl.
    set (st1 := {| outputSegmentList := outputSegmentList st ++ [r] |}).
    destruct (IH st1 r) as (st' & H1 & H2); auto.
    + split; simpl; [now rewrite last_ref_snoc | auto].
    + exists st'. split; [exact H1|]. rewrite H2. simpl. now rewrite <- app_assoc.
Qed.

Lemma merge_settled (h : store) (l : list ref) :
  settled h l -> merge_speaker_segments h l = Ok (l, h).
Proof.
  unfold merge_speaker_segments. destruct l as [|r l]; simpl; [reflexivity|].
  intros [Hs Hf]. rewrite merge_step_first.
  destruct (String.eqb_spec (segmentSpeaker (h r)) ""); [contradiction|]. simpl.
  set (st1 := {| outputSegmentList := [r] |}).
  destruct (merge_loop_settled_from h l st1 r) as (st' & H1 & H2); auto.
  - split; simpl; auto.
  - rewrite H1. simpl. now rewrite H2.
Qed.

(** C7.  The merger is idempotent on its own output: a second run over the
    list that a run has returned, in the store that the run has left,
    returns the same list and writes to no segment. *)
Theorem merge_idempotent (h h' : store) (l out : list ref) :
  NoDup l ->
  merge_speaker_segments h l = Ok (out, h') ->
  merge_speaker_segments h' out = Ok (out, h').
Proof.
  intros Hnd H. apply merge_settled.
  unfold merge_speaker_segments in H.
  apply bind_Ok in H as ([st h1] & H1 & H). injection H as <- <-.
  apply (merge_loop_settled l merge_init st h h1); simpl; auto.
  apply tail_ok_init.
Qed.

(** *** C10: absorbing a segment that has no token *)

(** C10.  When the four continuation conditions hold for a segment that
    has no token, the merger raises [IndexError] at
    [segment.segmentConfidence[0]], whatever follows in the list: a run
    returns only if every segment that it absorbs carries a token. *)
Theorem absorbing_wordless_segment_raises (h : store) (l1 l2 : list ref) (r : ref)
  (out1 : list ref) (h1 : store) (p : ref) :
  merge_speaker_segments h l1 = Ok (out1, h1) ->
  last_ref out1 = Some p ->
  continues_spec (h1 p) (h1 r) = true ->
  segmentConfidence (h1 r) = [] ->
  merge_speaker_segments h (l1 ++ r :: l2) = Raise IndexError.
Proof.
  intros Hm Hp Hc He. apply continues_spec_true in Hc.
  apply merge_speaker_segments_Ok in Hm as (st1 & Hl & <- & Ht & Hs).
  rewrite <- Ht in Hp. rewrite Hp in Hs. destruct Hs as [Hs1 Hs2].
  unfold merge_speaker_segments. rewrite merge_loop_app, Hl. simpl.
  unfold merge_step.
  rewrite (starts_new_segment_continues h1 st1 p r Hp Hs1 Hs2), Hc, Hp. simpl.
  now rewrite (absorb_empty h1 p r He).
Qed.

(** Every run that returns has found a first token on each segment that
    it absorbed. *)
Lemma merge_Ok_absorbed_nonempty (h h' : store) (l out : list ref) (r : ref) :
  NoDup l -> merge_speaker_segments h l = Ok (out, h') ->
  In r l -> ~ In r out -> segmentConfidence (h r) <> [].
Proof.
  intros Hnd H Hr Hout. apply in_split in Hr as (l1 & l2 & ->).
  unfold merge_speaker_segments in H. rewrite merge_loop_app in H.
  apply bind_Ok in H as ([st' h''] & H & Heq). injection Heq as <- <-.
  apply bind_Ok in H as ([st1 h1] & H1 & H). simpl in H.
  apply bind_Ok in H as ([st2 h2] & Hs & H).
  assert (Hr : h1 r = h r).
  { apply (merge_loop_frame _ _ _ _ _ r H1); [|discriminate].
    apply NoDup_remove_2 in Hnd. intros Hin. apply Hnd, in_or_app. now left. }
  apply merge_loop_output in H as (o & Ho & _).
  apply merge_step_Ok in Hs as [(_ & -> & _)|(p & _ & _ & _ & Ha)].
  - exfalso. apply Hout. rewrite Ho. simpl.
    apply in_or_app. left. apply in_or_app. right. now left.
  - rewrite <- Hr. exact (absorb_Ok_nonempty _ _ _ _ Ha).
Qed.

(** ** Texts and tokens *)

Lemma append_assoc (a b c : string) : ((a ++ b) ++ c = a ++ (b ++ c))%string.
Proof. induction a as [|x a IH]; simpl; [reflexivity | now rewrite IH]. Qed.

Lemma append_empty_r (a : string) : (a ++ "" = a)%string.
Proof. induction a as [|x a IH]; simpl; [reflexivity | now rewrite IH]. Qed.

Lemma tokens_text_cons (w : Word.t) (l : list Word.t) :
  tokens_text (w :: l) = (Word.text w ++ tokens_text l)%string.
Proof.
  unfold tokens_text. destruct l as [|w' l]; simpl; [now rewrite append_empty_r|].
  reflexivity.
Qed.

Lemma tokens_text_app (l1 l2 : list Word.t) :
  tokens_text (l1 ++ l2) = (tokens_text l1 ++ tokens_text l2)%string.
Proof.
  induction l1 as [|w l1 IH]; [reflexivity|].
  rewrite <- app_comm_cons, !tokens_text_cons, IH. now rewrite append_assoc.
Qed.

Lemma join_space_cons (a : string) (l : list string) :
  l <> [] -> join_space (a :: l) = (a ++ " " ++ join_space l)%string.
Proof. destruct l; [congruence | reflexivity]. Qed.

(** Joining the two halves of a merged text gives what joining the two
    texts gave. *)
Lemma join_space_merge (A R : list string) (a b : string) :
  join_space (A ++ (a ++ " " ++ b)%string :: R) = join_space (A ++ a :: b :: R).
Proof.
  induction A as [|x A IH].
  - simpl app. rewrite (join_space_cons a) by discriminate.
    destruct R as [|c R].
    + reflexivity.
    + rewrite !join_space_cons by discriminate. now rewrite !append_assoc.
  - rewrite <- !app_comm_cons.
    rewrite !join_space_cons by (destruct A; discriminate). now rewrite IH.
Qed.

(** The absorbed segment's tokens after the leading space, read as text and
    as timings. *)
Lemma spaced_tokens_text (s : SpeechSegment) :
  segmentConfidence s <> [] ->
  tokens_text (segmentConfidence (spaced s))
  = (" " ++ tokens_text (segmentConfidence s))%string.
Proof.
  unfold spaced. destruct (segmentConfidence s) as [|w ws] eqn:E; [congruence|].
  intros _. simpl. now rewrite !tokens_text_cons.
Qed.

Lemma spaced_timing (s : SpeechSegment) :
  map Word.timing (segmentConfidence (spaced s))
  = map Word.timing (segmentConfidence s).
Proof.
  unfold spaced. now destruct (segmentConfidence s) as [|w ws] eqn:E; simpl; rewrite ?E.
Qed.

(** A property of the list of live segments (those of the output list,
    then those still to come) that survives the replacement of two
    neighbours by their merge holds of the output of the run. *)
Lemma merge_loop_live (Q : list SpeechSegment -> Prop) :
  (forall A p s R,
      segmentConfidence s <> [] ->
      Q (A ++ p :: s :: R) -> Q (A ++ merged p s :: R)) ->
  forall l st h st' h',
    NoDup (outputSegmentList st ++ l) -> tail_ok h st ->
    merge_loop l st h = Ok (st', h') ->
    Q (map h (outputSegmentList st ++ l)) ->
    Q (map h' (outputSegmentList st')).
Proof.
  intros HQ l st h st' h' Hnd Ht H HQ0.
  enough (NoDup (outputSegmentList st' ++ []) /\ tail_ok h' st'
          /\ Q (map h' (outputSegmentList st' ++ []))) as (_ & _ & HQ1).
  { now rewrite app_nil_r in HQ1. }
  apply (merge_loop_invariant
           (fun rest st1 h1 =>
              NoDup (outputSegmentList st1 ++ rest) /\ tail_ok h1 st1
              /\ Q (map h1 (outputSegmentList st1 ++ rest))))
    with (l:=l) (st:=st) (h:=h); auto.
  clear - HQ. intros r rest st h st' h' (Hnd & Ht & Hq) Hstep.
  pose proof (merge_step_tail_ok _ _ _ _ _ Ht Hstep) as Ht'.
  apply merge_step_Ok in Hstep as [(Hn & -> & ->)|(p & _ & Hp & -> & Ha)]; simpl.
  - rewrite <- app_assoc. auto.
  - split; [exact (NoDup_remove_1 _ _ _ Hnd)|]. split; [exact Ht'|].
    destruct Ht as [Hl _]. rewrite Hp in Hl. symmetry in Hl.
    apply last_ref_Some in Hl as (o & Ho). rewrite Ho in *.
    rewrite <- app_assoc in *. simpl in *.
    assert (Hpr : p <> r).
    { intros ->. apply NoDup_remove_2 in Hnd. apply Hnd, in_or_app. right. now left. }
    apply (absorb_Ok _ _ _ _ Hpr) in Ha as (Hne & Hm & _ & Hfr).
    rewrite map_app in *. simpl in *. rewrite Hm.
    assert (Ho' : map h' o = map h o).
    { apply map_ext_in. intros q Hq'. apply Hfr.
      - intros ->. apply NoDup_remove_2 in Hnd. apply Hnd, in_or_app. now left.
      - intros ->. apply (NoDup_app_disjoint _ _ r Hnd); [auto | right; now left]. }
    assert (Hr' : map h' rest = map h rest).
    { apply NoDup_app_remove_l in Hnd.
      apply NoDup_cons_iff in Hnd as [Hp1 Hnd]. apply NoDup_cons_iff in Hnd as [Hr1 _].
      apply map_ext_in. intros q Hq'. apply Hfr.
      - intros ->. apply Hp1. now right.
      - intros ->. now apply Hr1. }
    rewrite Ho', Hr'. now apply HQ.
Qed.

Lemma merge_live (Q : list SpeechSegment -> Prop) :
  (forall A p s R,
      segmentConfidence s <> [] ->
      Q (A ++ p :: s :: R) -> Q (A ++ merged p s :: R)) ->
  forall h h' l out,
    NoDup l -> merge_speaker_segments h l = Ok (out, h') ->
    Q (map h l) -> Q (map h' out).
Proof.
  intros HQ h h' l out Hnd H HQ0. unfold merge_speaker_segments in H.
  apply bind_Ok in H as ([st h1] & H1 & H). injection H as <- <-.
  apply (merge_loop_live Q HQ l merge_init h st h1); auto. apply tail_ok_init.
Qed.

Lemma merged_text_matches_tokens (p s : SpeechSegment) :
  segmentConfidence s <> [] ->
  text_matches_tokens p -> text_matches_tokens s ->
  text_matches_tokens (merged p s).
Proof.
  unfold text_matches_tokens, merged. simpl. intros Hne -> ->.
  now rewrite tokens_text_app, spaced_tokens_text.
Qed.

(** The merger keeps the agreement of text and tokens, the space-joined
    text of the whole list, and the tokens of the whole list in order. *)
Lemma merge_text_matches_tokens (h h' : store) (l out : list ref) :
  NoDup l -> merge_speaker_segments h l = Ok (out, h') ->
  Forall text_matches_tokens (map h l) ->
  Forall text_matches_tokens (map h' out).
Proof.
  apply (merge_live (Forall text_matches_tokens)).
  intros A p s R Hne HF. apply Forall_app in HF as [HA HF].
  apply Forall_cons_iff in HF as [Hp HF]. apply Forall_cons_iff in HF as [Hs HR].
  apply Forall_app. split; [exact HA|]. constructor; [|exact HR].
  now apply merged_text_matches_tokens.
Qed.

Lemma merge_join_space (h h' : store) (l out : list ref) :
  NoDup l -> merge_speaker_segments h l = Ok (out, h') ->
  join_space (map segmentText (map h' out)) = join_space (map segmentText (map h l)).
Proof.
  intros Hnd H.
  apply (merge_live
           (fun vs => join_space (map segmentText vs)
                      = join_space (map segmentText (map h l))))
    with (h:=h) (l:=l); auto.
  intros A p s R _ HQ. rewrite <- HQ, !map_app. simpl. apply join_space_merge.
Qed.

Lemma merge_tokens (h h' : store) (l out : list ref) :
  NoDup l -> merge_speaker_segments h l = Ok (out, h') ->
  map Word.timing (flat_map segmentConfidence (map h' out))
  = map Word.timing (flat_map segmentConfidence (map h l)).
Proof.
  intros Hnd H.
  apply (merge_live
           (fun vs => map Word.timing (flat_map segmentConfidence vs)
                      = map Word.timing (flat_map segmentConfidence (map h l))))
    with (h:=h) (l:=l); auto.
  intros A p s R _ HQ. rewrite <- HQ, !flat_map_app, !map_app. f_equal. simpl.
  rewrite !map_app, spaced_timing. now rewrite <- app_assoc.
Qed.

(** ** The Word Assembler *)

Lemma update_last_snoc {A : Type} (f : A -> A) (l : list A) (a : A) :
  update_last f (l ++ [a]) = Ok (l ++ [f a]).
Proof.
  induction l as [|x l IH]; [reflexivity|].
  simpl. rewrite IH. now destruct l.
Qed.

Lemma set_text_append_empty (t : Word.t) :
  Word.set_text t (Word.text t ++ "")%string = t.
Proof. destruct t. unfold Word.set_text. simpl. now rewrite append_empty_r. Qed.

(** Once a token has been emitted, the rest of the loop glues the
    punctuation that follows to it and emits the later words with a leading
    space. *)
Lemma word_loop_after_token (items : list AudioItem.t) :
  forall (indices : list Z) (words : list AudioItem.t),
    Forall2 (fun word_ptr w => py_getitem items word_ptr = Ok w) indices words ->
    forallb well_timed words = true ->
    forall (acc : list Word.t) (t : Word.t),
      word_loop items indices (false, acc ++ [t])
      = Ok (false,
            acc ++ Word.set_text t (Word.text t ++ trailing_punctuation words)%string
                :: spec_tokens " " words).
Proof.
  induction 1 as [|word_ptr w indices words Hw _ IH]; intros Hwt acc t.
  - simpl. now rewrite set_text_append_empty.
  - simpl in Hwt. apply andb_true_iff in Hwt as [Hw1 Hwt].
    simpl. rewrite Hw. simpl. unfold add_word, well_timed, AudioItem.timed in *.
    destruct (AudioItem.start_timestamp_millis w) as [start_ms|].
    + destruct (AudioItem.end_timestamp_millis w) as [end_ms|]; [|discriminate].
      simpl bind. rewrite (IH Hwt). rewrite set_text_append_empty.
      rewrite <- app_assoc. reflexivity.
    + rewrite update_last_snoc. simpl bind. rewrite (IH Hwt).
      unfold Word.set_text. simpl. rewrite append_assoc.
      now destruct (AudioItem.end_timestamp_millis w).
Qed.

Lemma spec_tokens_length (lead : string) (words : list AudioItem.t) :
  forallb well_timed words = true ->
  List.length (spec_tokens lead words)
  = List.length (filter AudioItem.timed words).
Proof.
  revert lead. induction words as [|w words IH]; intros lead Hwt; [reflexivity|].
  simpl in Hwt. apply andb_true_iff in Hwt as [Hw Hwt].
  simpl. unfold AudioItem.timed, well_timed in *.
  destruct (AudioItem.start_timestamp_millis w);
    destruct (AudioItem.end_timestamp_millis w); try discriminate;
    simpl; now rewrite IH.
Qed.

(** C8.  On the items that the indices of a turn name, the Word Assembler
    computes the tokens of the specification: the first timed item gives
    its text verbatim, every later timed item gets exactly one leading
    space, and an untimed item is glued without a space to the token before
    it, so that there is one token per timed item, with the timing of that
    item. *)
Theorem word_assembler_rule (items : list AudioItem.t) (indices : list Z)
  (words : list AudioItem.t) :
  Forall2 (fun word_ptr w => py_getitem items word_ptr = Ok w) indices words ->
  forallb well_timed words = true ->
  starts_timed words = true ->
  assemble_words items indices = Ok (spec_tokens "" words)
  /\ List.length (spec_tokens "" words) = List.length (filter AudioItem.timed words).
Proof.
  intros Hf Hwt Hst. split; [|now apply spec_tokens_length].
  unfold assemble_words. destruct Hf as [|word_ptr w indices words Hw Hf]; [reflexivity|].
  simpl in Hwt, Hst. apply andb_true_iff in Hwt as [Hw1 Hwt].
  simpl. rewrite Hw. simpl. unfold add_word, well_timed, AudioItem.timed in *.
  destruct (AudioItem.start_timestamp_millis w) as [start_ms|]; [|discriminate].
  destruct (AudioItem.end_timestamp_millis w) as [end_ms|]; [|discriminate].
  simpl bind.
  match goal with
  | |- context [word_loop _ _ (false, [?t])] =>
      pose proof (word_loop_after_token items indices words Hf Hwt [] t) as E
  end.
  simpl app in E. rewrite E. reflexivity.
Qed.

(** ** The Turn Builder *)

Lemma assemble_words_untimed_first (items : list AudioItem.t) (word_ptr : Z)
  (rest : list Z) (w : AudioItem.t) :
  py_getitem items word_ptr = Ok w -> AudioItem.timed w = false ->
  assemble_words items (word_ptr :: rest) = Raise IndexError.
Proof.
  intros Hw Ht. unfold assemble_words. simpl. rewrite Hw. simpl.
  unfold add_word, AudioItem.timed in *.
  now destruct (AudioItem.start_timestamp_millis w).
Qed.

Lemma turn_loop_raises (data : bda_data) (cli : cli_args) (turn : Turn.t) :
  (forall index, exists e, build_segment data cli index turn = Raise e) ->
  forall turns index h acc,
    In turn turns -> exists e, turn_loop data cli turns index h acc = Raise e.
Proof.
  intros Hb. induction turns as [|t turns IH]; intros index h acc Hin; [easy|].
  simpl. destruct Hin as [->|Hin].
  - destruct (Hb index) as [e ->]. simpl. eauto.
  - destruct (build_segment data cli index t) as [s|e]; simpl; eauto.
Qed.

(** C9.  A turn whose first item is a punctuation mark makes the Turn
    Builder raise: there is no token to attach the mark to, and
    [segmentConfidence[-1]] fails on the empty list. *)
Theorem untimed_first_item_raises (data : bda_data) (cli : cli_args)
  (turn : Turn.t) (word_ptr : Z) (rest : list Z) (w : AudioItem.t) :
  In turn (audio_segments data) ->
  Turn.audio_item_indices turn = word_ptr :: rest ->
  py_getitem (audio_items data) word_ptr = Ok w ->
  AudioItem.timed w = false ->
  (forall index, build_segment data cli index turn = Raise IndexError)
  /\ exists e, create_turn_by_turn_segments data cli = Raise e.
Proof.
  intros Hin Hi Hw Ht.
  assert (Hb : forall index, build_segment data cli index turn = Raise IndexError).
  { intros index. unfold build_segment.
    now rewrite Hi, (assemble_words_untimed_first _ _ _ _ Hw Ht). }
  split; [exact Hb|].
  unfold create_turn_by_turn_segments.
  destruct (turn_loop_raises data cli turn) with
    (turns := audio_segments data) (index := 0%nat) (h := empty_store)
    (acc := @nil ref) as [e ->]; simpl; eauto.
Qed.

Lemma build_segment_Ok (data : bda_data) (cli : cli_args) (index : nat)
  (turn : Turn.t) (s : SpeechSegment) :
  build_segment data cli index turn = Ok s ->
  segmentText s = Turn.text turn
  /\ assemble_words (audio_items data) (Turn.audio_item_indices turn)
     = Ok (segmentConfidence s).
Proof.
  unfold build_segment. intros H.
  apply bind_Ok in H as (toks & Ha & H). apply bind_Ok in H as (m & _ & H).
  injection H as <-. auto.
Qed.

(** The Turn Builder allocates one object per turn, at the addresses
    [index], [index + 1], ... *)
Lemma turn_loop_Ok (data : bda_data) (cli : cli_args) :
  forall turns index h acc l h',
    turn_loop data cli turns index h acc = Ok (l, h') ->
    l = acc ++ seq index (List.length turns)
    /\ (forall q, (q < index)%nat -> h' q = h q)
    /\ Forall2 (fun turn s => exists i, build_segment data cli i turn = Ok s)
         turns (map h' (seq index (List.length turns))).
Proof.
  induction turns as [|turn turns IH]; simpl; intros index h acc l h' H.
  - injection H as <- <-. rewrite app_nil_r. auto.
  - apply bind_Ok in H as (s & Hb & H).
    apply IH in H as (-> & Hfr & HF). split; [now rewrite <- app_assoc|].
    split.
    + intros q Hq. rewrite Hfr by lia. apply upd_other. lia.
    + constructor; [|exact HF]. exists index.
      rewrite Hfr by lia. now rewrite upd_same.
Qed.

(** C5 (amended).  The text of a segment is what its turns give as
    ["text"]; so when the text of every input turn is the concatenation of
    the tokens assembled for it, the text of every output segment is the
    concatenation of its token texts, the output texts joined by single
    spaces are the token texts of the turns joined by single spaces, and
    the output segments hold the tokens of the turns, each once and in the
    original order. *)
Theorem text_reproduces_tokens (data : bda_data) (cli : cli_args)
  (out : list ref) (h : store) :
  create_turn_by_turn_segments data cli = Ok (out, h) ->
  (forall turn toks,
      In turn (audio_segments data) ->
      assemble_words (audio_items data) (Turn.audio_item_indices turn) = Ok toks ->
      Turn.text turn = tokens_text toks) ->
  (forall r, In r out ->
             segmentText (h r) = tokens_text (segmentConfidence (h r)))
  /\ exists tokens_per_turn,
      Forall2
        (fun turn toks =>
           assemble_words (audio_items data) (Turn.audio_item_indices turn) = Ok toks)
        (audio_segments data) tokens_per_turn
      /\ join_space (map (fun r => segmentText (h r)) out)
         = join_space (map tokens_text tokens_per_turn)
      /\ map Word.timing (flat_map (fun r => segmentConfidence (h r)) out)
         = map Word.timing (List.concat tokens_per_turn).
Proof.
  unfold create_turn_by_turn_segments. intros H Hcons.
  apply bind_Ok in H as ([l h0] & Hl & Hm).
  apply turn_loop_Ok in Hl as (-> & _ & HF). simpl in Hm.
  set (turns := audio_segments data) in *.
  set (l := seq 0 (List.length turns)) in *.
  assert (Hnd : NoDup l) by apply seq_NoDup.
  clearbody turns l.
  assert (Hbuilt :
           Forall2
             (fun turn s =>
                segmentText s = Turn.text turn
                /\ assemble_words (audio_items data) (Turn.audio_item_indices turn)
                   = Ok (segmentConfidence s)
                /\ text_matches_tokens s)
             turns (map h0 l)).
  { clear Hm Hnd. induction HF as [|turn s turns segs [i Hb] _ IH]; constructor.
    - apply build_segment_Ok in Hb as [Ht Ha]. repeat split; auto.
      unfold text_matches_tokens. rewrite Ht. apply Hcons; auto. now left.
    - apply IH. intros t toks Ht. apply Hcons. now right. }
  split.
  - intros r Hr.
    pose proof (merge_text_matches_tokens _ _ _ _ Hnd Hm) as HT.
    assert (Forall text_matches_tokens (map h0 l)) as HT0.
    { clear - Hbuilt. induction Hbuilt as [|? ? ? ? (_ & _ & ?)]; constructor; auto. }
    specialize (HT HT0). rewrite Forall_forall in HT.
    apply HT. now apply in_map.
  - exists (map segmentConfidence (map h0 l)). split; [|split].
    + clear - Hbuilt. induction Hbuilt as [|? ? ? ? (_ & ? & _)]; constructor; auto.
    + rewrite <- (map_map h segmentText), (merge_join_space _ _ _ _ Hnd Hm).
      f_equal. clear - Hbuilt.
      induction Hbuilt as [|? ? ? ? (_ & _ & Ht)]; simpl; [reflexivity|].
      now rewrite Ht, IHHbuilt.
    + rewrite <- (flat_map_concat_map segmentConfidence (map h0 l)).
      rewrite <- (merge_tokens _ _ _ _ Hnd Hm).
      f_equal. clear. induction out as [|r out IH]; simpl; [reflexivity|].
      now rewrite IH.
Qed.

(** ** The Sentiment Classifier *)

Section SentimentFacts.

Variable detect_sentiment : string -> string -> result SentimentScore.t.

Lemma generate_sentiment_frame (l : list ref) (h h' : store) (q : ref) :
  generate_sentiment detect_sentiment l h = Ok h' -> ~ In q l -> h' q = h q.
Proof.
  revert h. induction l as [|r l IH]; simpl; intros h H Hq.
  - now injection H as <-.
  - apply bind_Ok in H as (s & _ & H). rewrite (IH _ H) by tauto.
    apply upd_other. intros ->. apply Hq. now left.
Qed.

(** Every segment of a list of distinct segments goes through the loop body
    once, in the state in which the run found it. *)
Lemma generate_sentiment_at (l : list ref) (h h' : store) (r : ref) :
  NoDup l -> In r l ->
  generate_sentiment detect_sentiment l h = Ok h' ->
  score_segment detect_sentiment (h r) = Ok (h' r).
Proof.
  revert h. induction l as [|x l IH]; simpl; intros h Hnd Hr H; [easy|].
  apply NoDup_cons_iff in Hnd as [Hx Hnd].
  apply bind_Ok in H as (s & Hs & H). destruct Hr as [->|Hr].
  - rewrite (generate_sentiment_frame _ _ _ r H Hx), upd_same. exact Hs.
  - rewrite <- (IH _ Hnd Hr H). rewrite upd_other; [reflexivity|].
    intros ->. contradiction.
Qed.

(** The loop returns as soon as the scoring capability answers for every
    eligible segment. *)
Lemma generate_sentiment_returns (l : list ref) (h : store) :
  (forall text lang, exists response, detect_sentiment text lang = Ok response) ->
  exists h', generate_sentiment detect_sentiment l h = Ok h'.
Proof.
  intros Hd. revert h. induction l as [|r l IH]; simpl; intros h; [eauto|].
  assert (exists s, score_segment detect_sentiment (h r) = Ok s) as [s ->].
  { unfold score_segment.
    destruct (str_in _ _); [|eauto]. destruct (_ <=? _)%nat; [|eauto].
    destruct (Hd (segmentText (h r)) (segmentLanguage (h r))) as [resp ->].
    simpl. eauto. }
  simpl. apply IH.
Qed.

(** C4.  A segment that the classifier finds unset and eligible, and for
    which the scoring capability answers [response], ends with the raw
    positive and negative scores of the answer, and with the label
    negative and the negative score when that score is at least 0.4
    (whatever the positive score), else with the label positive and the
    positive score when that score is at least 0.6, else with the label
    neutral-or-mixed and the score left at -1.0. *)
Theorem sentiment_thresholds (l : list ref) (h h' : store) (r : ref)
  (response : SentimentScore.t) :
  NoDup l -> In r l ->
  generate_sentiment detect_sentiment l h = Ok h' ->
  eligible (h r) = true ->
  unset (h r) ->
  detect_sentiment (segmentText (h r)) (segmentLanguage (h r)) = Ok response ->
  (segmentPositive (h' r) = SentimentScore.Positive response
   /\ segmentNegative (h' r) = SentimentScore.Negative response
   /\ segmentAllSentiments (h' r) = Some response)
  /\ if (0.4 <=? SentimentScore.Negative response)%float then
       label_of (h' r) = negative
       /\ segmentSentimentScore (h' r) = SentimentScore.Negative response
     else if (0.6 <=? SentimentScore.Positive response)%float then
       label_of (h' r) = positive
       /\ segmentSentimentScore (h' r) = SentimentScore.Positive response
     else
       label_of (h' r) = neutral_or_mixed
       /\ segmentSentimentScore (h' r) = (-1.0)%float.
Proof.
  intros Hnd Hr H He (Hp & Hn & Hs) Hd.
  pose proof (generate_sentiment_at l h h' r Hnd Hr H) as Hat.
  unfold eligible in He. apply andb_true_iff in He as [He1 He2].
  unfold score_segment in Hat. rewrite He1, He2, Hd in Hat. simpl in Hat.
  injection Hat as <-. unfold apply_scores, label_of.
  change MIN_SENTIMENT_NEGATIVE with 0.4%float.
  change MIN_SENTIMENT_POSITIVE with 0.6%float.
  split; [now repeat split|].
  destruct (0.4 <=? SentimentScore.Negative response)%float; simpl.
  - now rewrite Hp.
  - destruct (0.6 <=? SentimentScore.Positive response)%float; simpl.
    + now rewrite Hn.
    + now rewrite Hp, Hn.
Qed.

End SentimentFacts.

(** The segments that reach the classifier are unset: the Turn Builder
    creates them so, and the merger does not write the fields of the
    classifier. *)
Lemma upd_sentiment_fields (h : store) (r q : ref) (s : SpeechSegment) :
  sentiment_fields s = sentiment_fields (h r) ->
  sentiment_fields (upd h r s q) = sentiment_fields (h q).
Proof.
  intros Hs. unfold upd. destruct (Nat.eqb_spec q r); subst; auto.
Qed.

Lemma merge_step_sentiment_fields (r : ref) (st st' : merge_state) (h h' : store)
  (q : ref) :
  merge_step r st h = Ok (st', h') -> sentiment_fields (h' q) = sentiment_fields (h q).
Proof.
  intros H. apply merge_step_Ok in H as [(_ & _ & ->)|(p & _ & _ & _ & Ha)];
    [reflexivity|].
  unfold absorb in Ha. destruct (segmentConfidence _); [discriminate|].
  injection Ha as <-. now rewrite !upd_sentiment_fields by reflexivity.
Qed.

Lemma created_segments_unset (data : bda_data) (cli : cli_args)
  (out : list ref) (h : store) (r : ref) :
  create_turn_by_turn_segments data cli = Ok (out, h) -> In r out -> unset (h r).
Proof.
  unfold create_turn_by_turn_segments. intros H Hr.
  apply bind_Ok in H as ([l h0] & Hl & Hm). simpl in Hm.
  apply (merge_output_incl _ _ _ _ Hm) in Hr.
  apply turn_loop_Ok in Hl as (-> & _ & HF). simpl in Hr.
  assert (H0 : sentiment_fields (h0 r) = (false, false, (-1.0)%float)).
  { clear Hm. apply (in_map h0) in Hr. revert Hr HF.
    generalize (map h0 (seq 0 (List.length (audio_segments data)))).
    intros built Hr HF. induction HF as [|turn s turns segs [i Hb] _ IH]; [easy|].
    destruct Hr as [<-|Hr]; [|auto].
    unfold build_segment in Hb.
    apply bind_Ok in Hb as (toks & _ & Hb). apply bind_Ok in Hb as (m & _ & Hb).
    now injection Hb as <-. }
  assert (H1 : sentiment_fields (h r) = sentiment_fields (h0 r)).
  { unfold merge_speaker_segments in Hm.
    apply bind_Ok in Hm as ([st h1] & Hm & Heq). injection Heq as _ <-.
    apply (merge_loop_invariant
             (fun _ _ hx => sentiment_fields (hx r) = sentiment_fields (h0 r)))
      with (l := seq 0 (List.length (audio_segments data)))
           (st := merge_init) (h := h0) (st' := st); auto.
    intros x rest st0 hx st1 hy HP Hs. rewrite <- HP.
    eapply merge_step_sentiment_fields; eauto. }
  rewrite H0 in H1. unfold sentiment_fields in H1. injection H1 as H1 H2 H3.
  now repeat split.
Qed.

(** ** The Topic Marker Aligner *)

(** An integer is never found in a list of dictionaries. *)
Lemma int_not_in_dicts (n : Z) (l : list Topic.t) :
  py_in (PyInt n) (map PyDict l) = false.
Proof. induction l as [|d l IH]; [reflexivity | exact IH]. Qed.

(** So the loop never takes its [break]: it writes one row for every
    segment, whatever the topics. *)
Lemma write_rows_all (h : store) (speech_segments : list ref) :
  forall timed_topics topics_unmarked rows rows',
    write_rows h speech_segments timed_topics topics_unmarked rows = Ok rows' ->
    map row_segment rows' = map row_segment rows ++ speech_segments.
Proof.
  induction speech_segments as [|segment rest IH]; simpl;
    intros timed_topics topics_unmarked rows rows' H.
  - injection H as <-. now rewrite app_nil_r.
  - apply bind_Ok in H as (start_in_millis & _ & H).
    apply bind_Ok in H as (end_in_millis & _ & H).
    apply bind_Ok in H as ([[markers tt] tu] & _ & H).
    rewrite int_not_in_dicts in H. apply IH in H.
    rewrite H, map_app, <- app_assoc. reflexivity.
Qed.

(** C2, where the code departs from it.  The end time of a row is looked
    up in [timed_topics], a list of dictionaries, where no integer is ever
    found: the loop never stops at a segment, whether or not its end time is
    the time of a topic, and every run that returns has written one row for
    every segment. *)
Theorem write_transcribe_text_all (h : store) (speech_segments : list ref)
  (timed_topics : list Topic.t) (rows : list row) :
  write_transcribe_text h speech_segments timed_topics = Ok rows ->
  map row_segment rows = speech_segments.
Proof. intros H. now apply write_rows_all in H. Qed.

(** The unrolling of the [while] loop is long enough: at its end the start
    time is no longer among the unmarked topics. *)
Lemma py_index_in (x : pyval) (l : list pyval) :
  py_in x l = true -> exists idx, py_index x l = Some idx /\ (idx < List.length l)%nat.
Proof.
  induction l as [|y l IH]; simpl; [discriminate|].
  assert (Hsym : py_eq y x = py_eq x y).
  { destruct x as [a|[a b]], y as [c|[c d]]; simpl; try reflexivity.
    - apply Z.eqb_sym.
    - now rewrite (Z.eqb_sym a c), (Z.eqb_sym b d). }
  rewrite Hsym. destruct (py_eq x y); simpl.
  - intros _. exists 0%nat. split; [reflexivity | lia].
  - intros H. destruct (IH H) as (idx & -> & Hlt). exists (S idx). split; [reflexivity | lia].
Qed.

Lemma pop_length {A : Type} (idx : nat) (l : list A) :
  (idx < List.length l)%nat -> List.length (pop idx l) = pred (List.length l).
Proof.
  revert idx. induction l as [|a l IH]; intros [|idx]; simpl; try lia.
  intros H. rewrite IH by lia. lia.
Qed.

Lemma mark_topics_done (fuel : nat) (start_in_millis : Z) :
  forall timed_topics topics_unmarked runs runs' tt tu,
    (List.length topics_unmarked <= fuel)%nat ->
    mark_topics fuel start_in_millis timed_topics topics_unmarked runs
    = Ok (runs', tt, tu) ->
    py_in (PyInt start_in_millis) (map PyInt tu) = false.
Proof.
  induction fuel as [|fuel IH]; simpl; intros timed_topics topics_unmarked runs runs' tt tu Hl H.
  - injection H as _ _ <-. now destruct topics_unmarked.
  - destruct (py_in _ _) eqn:Hin; [|now injection H as _ _ <-].
    destruct (py_index_in _ _ Hin) as (idx & Hi & Hlt). rewrite Hi in H.
    rewrite length_map in Hlt.
    destruct (nth_error timed_topics idx); [|discriminate].
    apply IH in H; [exact H|]. rewrite pop_length by exact Hlt. lia.
Qed.

(** ** The claims on concrete inputs *)

Lemma NoDup_two (a b : ref) : a <> b -> NoDup [a; b].
Proof.
  intros Hab. constructor; [intros [E|[]]; now apply Hab|].
  constructor; [easy | constructor].
Qed.

Lemma NoDup_three (a b c : ref) : a <> b -> a <> c -> b <> c -> NoDup [a; b; c].
Proof.
  intros Hab Hac Hbc. constructor; [|now apply NoDup_two].
  intros [E|[E|[]]]; [now apply Hab | now apply Hac].
Qed.

(** The scenario of C3: with a gap of 0.5 s the two turns become one
    segment from the start of A to the end of B; with a gap of 3.0 s they
    stay apart. *)
Lemma merger_scenario :
  observe (merge_speaker_segments (store_of [turn_A; turn_B]) [0; 1]%nat)
  = Ok [turn_AB]
  /\ observe (merge_speaker_segments (store_of [turn_A; turn_B_late]) [0; 1]%nat)
     = Ok [turn_A; turn_B_late].
Proof.
  split.
  - destruct (proj1 (merger_absorbs_iff_continues
                       (store_of [turn_A; turn_B]) [0%nat] 1%nat [0%nat]
                       (store_of [turn_A; turn_B]) 0%nat
                       (NoDup_two 0 1 (fun e => O_S 0 e)) eq_refl eq_refl)
                eq_refl (fun e => @nil_cons _ _ _ (eq_sym e)))
      as (h2 & Hm & Hp & _).
    change ([0%nat] ++ [1%nat]) with [0%nat; 1%nat] in Hm.
    rewrite Hm. simpl. rewrite Hp. reflexivity.
  - pose proof (proj2 (merger_absorbs_iff_continues
                         (store_of [turn_A; turn_B_late]) [0%nat] 1%nat [0%nat]
                         (store_of [turn_A; turn_B_late]) 0%nat
                         (NoDup_two 0 1 (fun e => O_S 0 e)) eq_refl eq_refl)
                     eq_refl eq_refl) as Hm.
    change ([0%nat] ++ [1%nat]) with [0%nat; 1%nat] in Hm.
    rewrite Hm. reflexivity.
Defined.

(** C1, as stated, fails: turn B, which has no flag, is merged into the
    flagged turn A that precedes it, and the one output segment holds the
    text and the tokens of both. *)
Lemma later_segment_merges_into_flagged :
  nonempty (segmentContentModeration turn_A_flagged) = true
  /\ observe (merge_speaker_segments (store_of [turn_A_flagged; turn_B]) [0; 1]%nat)
     = Ok [turn_AB_flagged]
  /\ segmentText turn_AB_flagged = "Good morning. How are you?".
Proof. repeat split; reflexivity. Qed.

(** The flagged turn B opens its own entry after turn A, although speaker,
    language and gap would let it continue, and turn A stays as it was
    when turn C comes after them. *)
Lemma flagged_segment_scenario :
  (merge_speaker_segments (store_of [turn_A; turn_B_flagged]) [0; 1]%nat
   = Ok ([0; 1]%nat, store_of [turn_A; turn_B_flagged])
   /\ continues_spec turn_A turn_B = true)
  /\ store_after (store_of [turn_A; turn_B_flagged; turn_C]) [0; 1; 2]%nat 0%nat
     = turn_A.
Proof.
  split; [split; [|reflexivity]|].
  - exact (proj1 (flagged_segment_opens_entry
                    (store_of [turn_A; turn_B_flagged]) [0%nat] [] 1%nat [0%nat]
                    (store_of [turn_A; turn_B_flagged])
                    (NoDup_two 0 1 (fun e => O_S 0 e)) eq_refl eq_refl)
             (fun e => @nil_cons _ _ _ (eq_sym e))).
  - exact (proj2 (proj2 (flagged_segment_opens_entry
                           (store_of [turn_A; turn_B_flagged; turn_C])
                           [0%nat] [2%nat] 1%nat [0%nat]
                           (store_of [turn_A; turn_B_flagged; turn_C])
                           (NoDup_three 0 1 2 (fun e => O_S 0 e) (fun e => O_S 1 e)
                              (fun e => O_S 0 (eq_add_S _ _ e)))
                           eq_refl eq_refl)
                    [0; 1]%nat
                    (store_after (store_of [turn_A; turn_B_flagged; turn_C])
                       [0; 1; 2]%nat)
                    eq_refl)
             0%nat (or_introl eq_refl)).
Defined.

(** The failing input of C6: a single segment with an empty speaker
    label. *)
Lemma empty_speaker_scenario :
  merge_speaker_segments (store_of [turn_A_unlabelled]) [0%nat]
  = Raise AttributeError.
Proof.
  exact (merge_first_empty_speaker (store_of [turn_A_unlabelled]) 0%nat [] eq_refl).
Defined.

(** The scenario of C7: the merged turns A and B go through the merger
    again. *)
Lemma idempotent_scenario :
  merge_speaker_segments (store_after (store_of [turn_A; turn_B]) [0; 1]%nat) [0%nat]
  = Ok ([0%nat], store_after (store_of [turn_A; turn_B]) [0; 1]%nat).
Proof.
  exact (merge_idempotent (store_of [turn_A; turn_B])
           (store_after (store_of [turn_A; turn_B]) [0; 1]%nat)
           [0; 1]%nat [0%nat] (NoDup_two 0 1 (fun e => O_S 0 e)) eq_refl).
Defined.

(** The input of C10: turn B without a word, right after turn A. *)
Lemma wordless_scenario :
  merge_speaker_segments (store_of [turn_A; turn_B_wordless]) [0; 1]%nat
  = Raise IndexError.
Proof.
  exact (absorbing_wordless_segment_raises
           (store_of [turn_A; turn_B_wordless]) [0%nat] [] 1%nat [0%nat]
           (store_of [turn_A; turn_B_wordless]) 0%nat
           eq_refl eq_refl eq_refl eq_refl).
Defined.

(** The scenario of C8: "Hello" followed by "." is the single token
    "Hello.". *)
Lemma hello_scenario :
  assemble_words hello_items [0; 1]%Z = Ok [word "Hello." 0.0 0.5].
Proof.
  refine (proj1 (word_assembler_rule hello_items [0; 1]%Z hello_items
                   _ eq_refl eq_refl)).
  repeat constructor.
Defined.

(** The input of C9: a turn whose items are "." and then "Hello". *)
Lemma punctuation_first_scenario :
  build_segment punctuation_first_data no_guardrails 0
    (hello_turn ".Hello" [1; 0]%Z) = Raise IndexError.
Proof.
  exact (proj1 (untimed_first_item_raises punctuation_first_data no_guardrails
                  (hello_turn ".Hello" [1; 0]%Z) 1%Z [0%Z]
                  {| AudioItem.content := ".";
                     AudioItem.start_timestamp_millis := None;
                     AudioItem.end_timestamp_millis := None |}
                  (or_introl eq_refl) eq_refl eq_refl eq_refl) 0%nat).
Defined.

(** C5, as stated, fails: the text of a segment is the ["text"] of its
    turn, whatever the items of the turn spell.  Here the turn says
    "Hello" and its items spell "Hello.". *)
Lemma text_differs_from_tokens :
  observe (create_turn_by_turn_segments hello_data_other_text no_guardrails)
  = Ok [hello_segment_other_text]
  /\ segmentText hello_segment_other_text = "Hello"
  /\ tokens_text (segmentConfidence hello_segment_other_text) = "Hello."
  /\ (segmentText hello_segment_other_text
      =? tokens_text (segmentConfidence hello_segment_other_text))%string = false.
Proof. repeat split; reflexivity. Qed.

(** The scenarios of C4: scores 0.65 and 0.1 give the label positive and
    the score 0.65; scores 0.3 and 0.1 give neutral-or-mixed and no
    score. *)
Lemma sentiment_scenario :
  (label_of (store_scored (constant_scores 0.65 0.1) (store_of [turn_AB]) [0%nat] 0%nat)
   = positive
   /\ segmentSentimentScore
        (store_scored (constant_scores 0.65 0.1) (store_of [turn_AB]) [0%nat] 0%nat)
      = 0.65%float)
  /\ (label_of (store_scored (constant_scores 0.3 0.1) (store_of [turn_AB]) [0%nat] 0%nat)
      = neutral_or_mixed
      /\ segmentSentimentScore
           (store_scored (constant_scores 0.3 0.1) (store_of [turn_AB]) [0%nat] 0%nat)
         = (-1.0)%float).
Proof.
  split.
  - exact (proj2 (sentiment_thresholds (constant_scores 0.65 0.1) [0%nat]
                    (store_of [turn_AB])
                    (store_scored (constant_scores 0.65 0.1) (store_of [turn_AB]) [0%nat])
                    0%nat _
                    (NoDup_cons 0%nat (fun f : In 0%nat [] => f) (NoDup_nil _))
                    (or_introl eq_refl) eq_refl eq_refl
                    (conj eq_refl (conj eq_refl eq_refl)) eq_refl)).
  - exact (proj2 (sentiment_thresholds (constant_scores 0.3 0.1) [0%nat]
                    (store_of [turn_AB])
                    (store_scored (constant_scores 0.3 0.1) (store_of [turn_AB]) [0%nat])
                    0%nat _
                    (NoDup_cons 0%nat (fun f : In 0%nat [] => f) (NoDup_nil _))
                    (or_introl eq_refl) eq_refl eq_refl
                    (conj eq_refl (conj eq_refl eq_refl)) eq_refl)).
Defined.

(** The turns "Hello." and "World!" of one speaker become one segment,
    whose text is the concatenation of its token texts. *)
Lemma greeting_scenario :
  segmentText (created_store greeting_data no_guardrails 0%nat)
  = tokens_text (segmentConfidence (created_store greeting_data no_guardrails 0%nat))
  /\ segmentText (created_store greeting_data no_guardrails 0%nat) = "Hello. World!".
Proof.
  split; [|reflexivity].
  refine (proj1 (text_reproduces_tokens greeting_data no_guardrails [0%nat]
                   (created_store greeting_data no_guardrails) eq_refl _)
            0%nat (or_introl eq_refl)).
  intros turn toks [<-|[<-|[]]] H; vm_compute in H; injection H as <-; reflexivity.
Defined.

(** The failing input of C2: turn A ends at 10.0 s, where a topic starts,
    and the loop goes on to write the row of the next turn. *)
Lemma topic_boundary_scenario :
  ends_at_topic (store_of [turn_A; turn_B_late]) 0%nat [topic_at_10s] = true
  /\ map row_segment
       (rows_of
          (write_transcribe_text (store_of [turn_A; turn_B_late]) [0; 1]%nat
             [topic_at_10s]))
     = [0; 1]%nat.
Proof.
  split; [reflexivity|].
  exact (write_transcribe_text_all (store_of [turn_A; turn_B_late]) [0; 1]%nat
           [topic_at_10s] _ eq_refl).
Defined.

(** * Further properties *)

(** ** The merger as a grouping of neighbours *)

(** [continues] reads the speaker, the language and the end time of the
    previous segment, and the fields of the next one that are never
    written. *)
Lemma continues_view (a a' b b' : SpeechSegment) :
  segmentSpeaker a' = segmentSpeaker a ->
  segmentLanguage a' = segmentLanguage a ->
  segmentEndTime a' = segmentEndTime a ->
  static b' = static b ->
  continues a' b' = continues a b.
Proof.
  unfold static, continues, gap. intros -> -> -> [= -> -> -> ->]. reflexivity.
Qed.

Lemma continues_speaker_language (a b : SpeechSegment) :
  continues a b = true ->
  segmentSpeaker b = segmentSpeaker a /\ segmentLanguage b = segmentLanguage a.
Proof.
  unfold continues. rewrite !andb_true_iff. intros [[[Hs _] Hl] _].
  now apply String.eqb_eq in Hs, Hl.
Qed.

(** After the merger has come to segment [x] of its input, the previous
    output segment has the speaker, the language and the end time that [x]
    had at the start: so whether the next segment is absorbed depends on it
    and on [x] alone. *)
Lemma merge_loop_heads (h : store) :
  forall l st h1 x p st' h',
    NoDup (outputSegmentList st ++ l) ->
    tail_ok h1 st ->
    lastSegment st = Some p ->
    segmentSpeaker (h1 p) = segmentSpeaker (h x) ->
    segmentLanguage (h1 p) = segmentLanguage (h x) ->
    segmentEndTime (h1 p) = segmentEndTime (h x) ->
    (forall q, In q l -> h1 q = h q) ->
    merge_loop l st h1 = Ok (st', h') ->
    outputSegmentList st' = outputSegmentList st ++ heads_from h x l
    /\ exists p', lastSegment st' = Some p'
                  /\ segmentEndTime (h' p') = segmentEndTime (h (last l x)).
Proof.
  induction l as [|r l IH]; intros st h1 x p st' h' Hnd Ht Hp Hs Hl He Hrest H.
  - simpl in H. injection H as <- <-. rewrite app_nil_r. eauto.
  - simpl in H. apply bind_Ok in H as ([st2 h2] & Hstep & H).
    pose proof Ht as [Hlast Hsl]. rewrite Hp in Hsl. destruct Hsl as [Hsp Hla].
    pose proof (starts_new_segment_continues h1 st p r Hp Hsp Hla) as Hn.
    assert (Hc : continues (h1 p) (h1 r) = continues (h x) (h r)).
    { apply continues_view; auto. rewrite Hrest; [reflexivity | now left]. }
    rewrite Hc in Hn.
    pose proof (merge_step_tail_ok _ _ _ _ _ Ht Hstep) as Ht2.
    assert (Hlx : last (r :: l) x = last l r) by (clear; revert r; induction l; intros; simpl in *; auto; destruct l; auto).
    rewrite Hlx. simpl heads_from.
    apply merge_step_Ok in Hstep as [(Hn1 & -> & ->)|(p0 & Hn' & Hp0 & -> & Ha)].
    + rewrite Hn in Hn1. injection Hn1 as Hn1. apply negb_true_iff in Hn1.
      rewrite Hn1.
      match type of H with
      | merge_loop _ ?s _ = _ => specialize (IH s h1 r r st' h')
      end.
      destruct IH as [Ho Hend]; simpl; auto.
      * now rewrite <- app_assoc.
      * now rewrite Hrest by now left.
      * now rewrite Hrest by now left.
      * now rewrite Hrest by now left.
      * intros q Hq. apply Hrest. now right.
      * split; [|exact Hend]. rewrite Ho. simpl. now rewrite <- app_assoc.
    + rewrite Hp in Hp0. injection Hp0 as <-. rewrite Hn in Hn'.
      injection Hn' as Hn'. apply negb_false_iff in Hn'. rewrite Hn'.
      assert (Hpr : p <> r).
      { intros ->. symmetry in Hlast. rewrite Hp in Hlast.
        apply last_ref_Some in Hlast as (o & Ho). rewrite Ho in Hnd.
        apply (NoDup_app_disjoint _ _ r Hnd); [apply in_or_app; right|]; now left. }
      destruct (continues_speaker_language _ _ Hn') as [Hrs Hrl].
      apply (absorb_Ok _ _ _ _ Hpr) in Ha as (_ & Hm & _ & Hfr).
      apply (IH st h2 r p st' h'); auto.
      * apply NoDup_remove_1 in Hnd. exact Hnd.
      * rewrite Hm. unfold merged. simpl. congruence.
      * rewrite Hm. unfold merged. simpl. congruence.
      * rewrite Hm. unfold merged. simpl. rewrite Hrest; [reflexivity | now left].
      * intros q Hq. rewrite Hfr; [apply Hrest; now right | |].
        -- intros ->. symmetry in Hlast. rewrite Hp in Hlast.
           apply last_ref_Some in Hlast as (o & Ho). rewrite Ho in Hnd.
           apply (NoDup_app_disjoint _ _ p Hnd);
             [apply in_or_app; right; now left | now right].
        -- intros ->. apply NoDup_app_remove_l in Hnd.
           apply NoDup_cons_iff in Hnd as [Hnd _]. contradiction.
Qed.

(** The output list of the merger holds the heads of the input. *)
Lemma merge_output_heads (h h' : store) (l out : list ref) :
  NoDup l ->
  merge_speaker_segments h l = Ok (out, h') ->
  out = heads h l.
Proof.
  intros Hnd H. destruct l as [|r l]; [now injection H as <- _|].
  unfold merge_speaker_segments in H. simpl in H. rewrite merge_step_first in H.
  destruct (segmentSpeaker (h r) =? "")%string; [discriminate|]. simpl in H.
  apply bind_Ok in H as ([st h1] & H & Heq). injection Heq as <- <-.
  apply (merge_loop_heads h) with (x := r) (p := r) in H as [Ho _]; simpl; auto.
  split; simpl; auto.
Qed.

(** X1.  The output list of the merger is decided by the neighbours of the
    input, read before the run: it holds the first segment and every
    segment that does not continue the segment just before it in the input
    (other speaker, other language, gap of 2.0 s or more from that
    segment's end, or moderation flags), in the order of the input. *)
Theorem merger_groups_neighbours (h h' : store) (l out : list ref) :
  NoDup l ->
  merge_speaker_segments h l = Ok (out, h') ->
  out = heads h l.
Proof. exact (merge_output_heads h h' l out). Qed.

Lemma merger_groups_neighbours_scenario :
  heads (store_of [turn_A; turn_B; turn_D]) [0; 1; 2]%nat = [0; 2]%nat.
Proof.
  symmetry.
  exact (merger_groups_neighbours (store_of [turn_A; turn_B; turn_D])
           (store_after (store_of [turn_A; turn_B; turn_D]) [0; 1; 2]%nat)
           [0; 1; 2]%nat [0; 2]%nat
           (NoDup_three 0 1 2 (fun e => O_S 0 e) (fun e => O_S 1 e)
              (fun e => O_S 0 (eq_add_S _ _ e)))
           eq_refl).
Defined.



(** Absorption leaves no segment without tokens that had some. *)
Lemma absorb_keeps_tokens (h h' : store) (p r q : ref) :
  p <> r -> absorb h p r = Ok h' ->
  segmentConfidence (h q) <> [] -> segmentConfidence (h' q) <> [].
Proof.
  intros Hpr Ha Hq. apply (absorb_Ok _ _ _ _ Hpr) in Ha as (Hne & Hm & Hr & Hfr).
  destruct (Nat.eq_dec q p) as [->|Hqp].
  - rewrite Hm. unfold merged. simpl. intros E. apply app_eq_nil in E as [E _].
    contradiction.
  - destruct (Nat.eq_dec q r) as [->|Hqr]; [|now rewrite Hfr].
    rewrite Hr. unfold spaced.
    destruct (segmentConfidence (h r)); [contradiction | discriminate].
Qed.

Lemma merge_loop_returns :
  forall l st h p,
    NoDup (outputSegmentList st ++ l) -> tail_ok h st ->
    lastSegment st = Some p ->
    (forall r, In r l -> segmentConfidence (h r) <> []) ->
    exists st' h', merge_loop l st h = Ok (st', h').
Proof.
  induction l as [|r l IH]; intros st h p Hnd Ht Hp Hne; simpl; [eauto|].
  assert (Hn : exists b, starts_new_segment h st r = Ok b).
  { unfold starts_new_segment. rewrite Hp. destruct (negb _); eauto. }
  destruct Hn as [b Hn].
  assert (Hstep : exists st1 h1, merge_step r st h = Ok (st1, h1)).
  { unfold merge_step. rewrite Hn. simpl. destruct b; [eauto|]. rewrite Hp.
    destruct (absorb_returns h p r) as [h1 ->]; [apply Hne; now left|].
    simpl. eauto. }
  destruct Hstep as (st1 & h1 & Hstep). rewrite Hstep. simpl.
  pose proof (merge_step_tail_ok _ _ _ _ _ Ht Hstep) as Ht1.
  apply merge_step_Ok in Hstep as [(_ & -> & ->)|(p0 & _ & Hp0 & -> & Ha)].
  - apply (IH _ h r); simpl; auto.
    + now rewrite <- app_assoc.
    + intros q Hq. apply Hne. now right.
  - rewrite Hp in Hp0. injection Hp0 as <-.
    apply (IH st h1 p); auto.
    + exact (NoDup_remove_1 _ _ _ Hnd).
    + intros q Hq. apply (absorb_keeps_tokens h h1 p r q); auto.
      * intros ->. destruct Ht as [Hl _]. rewrite Hp in Hl. symmetry in Hl.
        apply last_ref_Some in Hl as (o & Ho). rewrite Ho in Hnd.
        apply (NoDup_app_disjoint _ _ r Hnd); [apply in_or_app; right|]; now left.
      * apply Hne. now right.
Qed.

(** X3.  The merger returns a list for every input of distinct segments
    whose first segment has a speaker label other than the empty string and
    whose segments all carry at least one token: the two failures of the
    merger (the empty first label and the absorbed segment without token)
    are its only ones. *)
Theorem merger_returns (h : store) (r : ref) (l : list ref) :
  NoDup (r :: l) ->
  segmentSpeaker (h r) <> "" ->
  (forall q, In q l -> segmentConfidence (h q) <> []) ->
  exists out h', merge_speaker_segments h (r :: l) = Ok (out, h').
Proof.
  intros Hnd Hs Hne. unfold merge_speaker_segments. simpl.
  rewrite merge_step_first.
  destruct (String.eqb_spec (segmentSpeaker (h r)) ""); [contradiction|]. simpl.
  match goal with
  | |- context [merge_loop l ?s h] =>
      destruct (merge_loop_returns l s h r) as (st' & h' & ->); simpl; auto
  end.
  - split; simpl; auto.
  - eauto.
Qed.

Lemma merger_returns_scenario :
  exists out h',
    merge_speaker_segments (store_of [turn_A; turn_B; turn_D]) [0; 1; 2]%nat
    = Ok (out, h').
Proof.
  apply (merger_returns (store_of [turn_A; turn_B; turn_D]) 0%nat [1; 2]%nat).
  - exact (NoDup_three 0 1 2 (fun e => O_S 0 e) (fun e => O_S 1 e)
             (fun e => O_S 0 (eq_add_S _ _ e))).
  - discriminate.
  - intros q [<-|[<-|[]]]; discriminate.
Defined.

Lemma upd_field {A : Type} (f : SpeechSegment -> A) (h : store) (r q : ref)
  (s : SpeechSegment) :
  f s = f (h r) -> f (upd h r s q) = f (h q).
Proof.
  intros Hs. unfold upd. destruct (Nat.eqb_spec q r); subst; auto.
Qed.

(** X4.  The merger writes nothing but end times, texts and token lists:
    the start time, the speaker, the language, the moderation flags and the
    fields of the classifier keep their values in every segment, and a
    segment that is not in the input list is not written at all. *)
Theorem merger_writes_only_end_text_tokens (h h' : store) (l out : list ref) :
  merge_speaker_segments h l = Ok (out, h') ->
  (forall q, static (h' q) = static (h q)
             /\ sentiment_fields (h' q) = sentiment_fields (h q)
             /\ segmentPositive (h' q) = segmentPositive (h q)
             /\ segmentNegative (h' q) = segmentNegative (h q))
  /\ (forall q, ~ In q l -> h' q = h q).
Proof.
  intros H. apply merge_speaker_segments_Ok in H as (st & H & _).
  split.
  - intros q.
    apply (merge_loop_invariant
             (fun _ _ hx =>
                static (hx q) = static (h q)
                /\ sentiment_fields (hx q) = sentiment_fields (h q)
                /\ segmentPositive (hx q) = segmentPositive (h q)
                /\ segmentNegative (hx q) = segmentNegative (h q)))
      with (l := l) (st := merge_init) (h := h) (st' := st); auto.
    intros r rest st0 hx st1 hy (H1 & H2 & H3 & H4) Hs.
    rewrite <- H1, <- H2, <- H3, <- H4.
    split; [eapply merge_step_static; eauto|].
    split; [eapply merge_step_sentiment_fields; eauto|].
    apply merge_step_Ok in Hs as [(_ & _ & ->)|(p & _ & _ & _ & Ha)]; [auto|].
    unfold absorb in Ha. destruct (segmentConfidence _); [discriminate|].
    injection Ha as <-.
    now rewrite !(upd_field segmentPositive), !(upd_field segmentNegative)
      by reflexivity.
  - intros q Hq. apply (merge_loop_frame _ _ _ _ _ q H Hq). discriminate.
Qed.

Lemma merger_writes_scenario :
  static (store_after (store_of [turn_A; turn_B; turn_D]) [0; 1]%nat 0%nat)
  = static turn_A
  /\ store_after (store_of [turn_A; turn_B; turn_D]) [0; 1]%nat 2%nat = turn_D.
Proof.
  destruct (merger_writes_only_end_text_tokens
              (store_of [turn_A; turn_B; turn_D])
              (store_after (store_of [turn_A; turn_B; turn_D]) [0; 1]%nat)
              [0; 1]%nat [0%nat] eq_refl) as [H1 H2].
  split.
  - exact (proj1 (H1 0%nat)).
  - apply (H2 2%nat). intros [E|[E|[]]]; discriminate.
Defined.

(** ** [create_text_array] *)

(** After the first element, the loop appends a comma, a space and the
    element for every element that is left. *)
Lemma text_array_loop_later (whole_array : list string) :
  forall index text_line,
    text_array_loop whole_array (S index) text_line
    = (text_line
       ++ String.concat "" (map (fun x => ", " ++ x) whole_array))%string.
Proof.
  induction whole_array as [|x l IH]; intros index text_line; simpl.
  - now rewrite append_empty_r.
  - rewrite IH. destruct l as [|y l]; simpl.
    + now rewrite !append_empty_r, append_assoc.
    + now rewrite !append_assoc.
Qed.

Lemma concat_comma_cons (x : string) (l : list string) :
  String.concat ", " (x :: l)
  = (x ++ String.concat "" (map (fun y => ", " ++ y) l))%string.
Proof.
  revert x. induction l as [|y l IH]; intros x.
  - simpl. now rewrite append_empty_r.
  - change (String.concat ", " (x :: y :: l))
      with (x ++ ", " ++ String.concat ", " (y :: l))%string.
    rewrite IH. destruct l as [|z l]; simpl; [now rewrite !append_empty_r|].
    reflexivity.
Qed.

Lemma create_text_array_concat (whole_array : list string) :
  create_text_array whole_array = String.concat ", " whole_array.
Proof.
  destruct whole_array as [|x l]; [reflexivity|].
  change (create_text_array (x :: l)) with (text_array_loop l 1 x).
  now rewrite text_array_loop_later, concat_comma_cons.
Qed.

(** X5.  [create_text_array] is the join of its elements with a comma and a
    space: no separator before the first element or after the last, the
    empty string for the empty list. *)
Theorem create_text_array_join (whole_array : list string) :
  create_text_array whole_array = String.concat ", " whole_array.
Proof. exact (create_text_array_concat whole_array). Qed.

(** X6.  The text of two arrays put end to end is the two texts with a
    comma and a space between them, when neither array is empty; an empty
    array adds nothing, not even a separator. *)
Theorem create_text_array_app (a b : list string) :
  create_text_array (a ++ b)
  = match a, b with
    | [], _ => create_text_array b
    | _, [] => create_text_array a
    | _ :: _, _ :: _ => (create_text_array a ++ ", " ++ create_text_array b)%string
    end.
Proof.
  destruct a as [|x a]; [reflexivity|].
  destruct b as [|y b]; [now rewrite app_nil_r|].
  rewrite !create_text_array_concat. rewrite <- app_comm_cons.
  rewrite !concat_comma_cons. rewrite map_app, append_assoc. f_equal.
  generalize (map (fun z => (", " ++ z)%string) a) as a'. intros a'.
  change (map (fun z => (", " ++ z)%string) (y :: b))
    with ((", " ++ y)%string :: map (fun z => (", " ++ z)%string) b).
  induction a' as [|u a' IH].
  - simpl app. change (String.concat "" []) with "". simpl append at 2.
    destruct b as [|z b]; simpl; [now rewrite append_empty_r | reflexivity].
  - rewrite <- app_comm_cons.
    assert (E : forall s l, String.concat "" (s :: l) = (s ++ String.concat "" l)%string).
    { intros s [|t l]; simpl; [now rewrite append_empty_r | reflexivity]. }
    rewrite !E, IH. now rewrite append_assoc.
Qed.

(** ** [create_pie_chart] *)

(** X7.  The colour of the leading wedge is looked up at [pie_value] in a
    table of six entries.  For a rating from 1 to 5 the lookup succeeds, the
    wedges have the sizes [pie_value] and [5 - pie_value], neither negative,
    and the leading colour is one of the twenty and differs from the colour
    of the other wedge; for a rating above 5 (or below -6) the function
    raises [IndexError]. *)
Theorem pie_chart_plan_bounds (pie_value : Z) :
  ((1 <= pie_value <= 5)%Z ->
   exists colour,
     pie_chart_plan pie_value = Ok ([pie_value; 5 - pie_value]%Z, [colour; 19%Z])
     /\ (0 <= colour < 19)%Z /\ (0 <= 5 - pie_value)%Z)
  /\ ((5 < pie_value \/ pie_value < -6)%Z ->
      pie_chart_plan pie_value = Raise IndexError).
Proof.
  split.
  - intros H.
    assert (E : (pie_value = 1 \/ pie_value = 2 \/ pie_value = 3
                 \/ pie_value = 4 \/ pie_value = 5)%Z) by lia.
    destruct E as [-> | [-> | [-> | [-> | ->]]]]; eexists; (split; [reflexivity|lia]).
  - intros H. unfold pie_chart_plan, py_getitem. simpl List.length.
    change (Z.of_nat 6) with 6%Z.
    destruct (Z.ltb_spec pie_value 0) as [E|E].
    + assert (E2 : (pie_value + 6 <? 0)%Z = true) by (apply Z.ltb_lt; lia).
      now rewrite E2.
    + assert (E1 : (pie_value <? 0)%Z = false) by (apply Z.ltb_ge; lia).
      assert (E2 : (6 <=? pie_value)%Z = true) by (apply Z.leb_le; lia).
      now rewrite E1, E2.
Qed.

Lemma pie_chart_plan_scenario :
  pie_chart_plan 4 = Ok ([4; 1]%Z, [10; 19]%Z)
  /\ pie_chart_plan 6 = Raise IndexError.
Proof.
  split.
  - destruct (proj1 (pie_chart_plan_bounds 4)) as (c & Hc & _); [lia|].
    rewrite Hc. injection Hc as <-. reflexivity.
  - apply (proj2 (pie_chart_plan_bounds 6)). left. reflexivity.
Defined.

(** ** The Turn Builder, the merger and the style of the words *)

Lemma update_last_Forall {A : Type} (P : A -> Prop) (f : A -> A) (l l' : list A) :
  (forall a, P a -> P (f a)) ->
  update_last f l = Ok l' -> Forall P l -> Forall P l'.
Proof.
  intros Hf. revert l'. induction l as [|a l IH]; intros l' H HP; [discriminate|].
  apply Forall_cons_iff in HP as [Ha HP].
  simpl in H. destruct l as [|b l].
  - injection H as <-. constructor; auto.
  - apply bind_Ok in H as (l'' & H1 & H). injection H as <-.
    constructor; auto.
Qed.

Lemma word_loop_confident (items : list AudioItem.t) :
  forall indices st st',
    word_loop items indices st = Ok st' ->
    Forall confident (snd st) -> Forall confident (snd st').
Proof.
  induction indices as [|word_ptr indices IH]; intros st st' H HF; simpl in H.
  - now injection H as <-.
  - apply bind_Ok in H as (w & _ & H). apply bind_Ok in H as (st1 & Ha & H).
    apply (IH _ _ H). clear H IH. destruct st as [skip acc]. simpl in *.
    unfold add_word in Ha.
    destruct (AudioItem.start_timestamp_millis w).
    + destruct (AudioItem.end_timestamp_millis w); [|discriminate].
      injection Ha as <-. simpl. apply Forall_app. split; [exact HF|].
      constructor; [reflexivity | constructor].
    + apply bind_Ok in Ha as (l & Hu & Ha). injection Ha as <-. simpl.
      eapply update_last_Forall; [|exact Hu|exact HF].
      intros a Ha. exact Ha.
Qed.

Lemma build_segment_confident (data : bda_data) (cli : cli_args) (index : nat)
  (turn : Turn.t) (s : SpeechSegment) :
  build_segment data cli index turn = Ok s ->
  Forall confident (segmentConfidence s).
Proof.
  intros H. apply build_segment_Ok in H as [_ H]. unfold assemble_words in H.
  apply bind_Ok in H as ([skip acc] & H & Heq). injection Heq as <-.
  apply (word_loop_confident _ _ _ _ H). constructor.
Qed.

(** What the Turn Builder has built before it calls the merger. *)
Lemma create_Ok (data : bda_data) (cli : cli_args) (out : list ref) (h : store) :
  create_turn_by_turn_segments data cli = Ok (out, h) ->
  exists l h0,
    NoDup l
    /\ merge_speaker_segments h0 l = Ok (out, h)
    /\ Forall (fun s => exists i turn,
                   In turn (audio_segments data)
                   /\ build_segment data cli i turn = Ok s)
         (map h0 l).
Proof.
  unfold create_turn_by_turn_segments. intros H.
  apply bind_Ok in H as ([l h0] & Hl & Hm). simpl in Hm.
  apply turn_loop_Ok in Hl as (-> & _ & HF). simpl in Hm.
  exists (seq 0 (List.length (audio_segments data))), h0.
  split; [apply seq_NoDup|]. split; [exact Hm|].
  clear Hm. revert HF.
  generalize (map h0 (seq 0 (List.length (audio_segments data)))).
  generalize (audio_segments data).
  intros turns segs HF. induction HF as [|turn s turns segs [i Hb] _ IH].
  - constructor.
  - constructor.
    + exists i, turn. split; [now left | exact Hb].
    + eapply Forall_impl; [|exact IH].
      intros s' (i' & t' & Hin & Hb'). exists i', t'. split; [now right | exact Hb'].
Qed.

(** X8.  Every token that [create_turn_by_turn_segments] returns has the
    confidence 1.0 that the Turn Builder writes, merged or not: so
    [write_transcribe_text] draws every word in black, never in brown or
    red, and never in bold. *)
Theorem words_are_always_black (data : bda_data) (cli : cli_args)
  (out : list ref) (h : store) (r : ref) (w : Word.t) :
  create_turn_by_turn_segments data cli = Ok (out, h) ->
  In r out -> In w (segmentConfidence (h r)) ->
  Word.confidence w = 1.0%float
  /\ word_style w
     = {| font_color := Some (RGB 0 0 0); font_bold := false;
          font_highlight := false |}.
Proof.
  intros H Hr Hw. apply create_Ok in H as (l & h0 & Hnd & Hm & HF).
  assert (Hc : Forall (fun s => Forall confident (segmentConfidence s)) (map h out)).
  { apply (merge_live (Forall (fun s => Forall confident (segmentConfidence s))))
      with (h := h0) (l := l); auto.
    - intros A p s R _ HQ. apply Forall_app in HQ as [HA HQ].
      apply Forall_cons_iff in HQ as [Hp HQ]. apply Forall_cons_iff in HQ as [Hs HR].
      apply Forall_app. split; [exact HA|]. constructor; [|exact HR].
      unfold merged. simpl. apply Forall_app. split; [exact Hp|].
      unfold spaced. destruct (segmentConfidence s) as [|w0 ws] eqn:E; [now rewrite E|].
      simpl. apply Forall_cons_iff in Hs as [Hw0 Hws]. constructor; assumption.
    - eapply Forall_impl; [|exact HF].
      intros s (i & turn & _ & Hb). exact (build_segment_confident _ _ _ _ _ Hb). }
  rewrite Forall_forall in Hc. specialize (Hc (h r) (in_map h _ _ Hr)).
  rewrite Forall_forall in Hc. specialize (Hc w Hw). unfold confident in Hc.
  split; [exact Hc|]. unfold word_style, set_transcript_text_style. now rewrite Hc.
Qed.

Lemma words_are_always_black_scenario :
  Forall (fun w => word_style w
                   = {| font_color := Some (RGB 0 0 0); font_bold := false;
                        font_highlight := false |})
    (segmentConfidence (created_store greeting_data no_guardrails 0%nat)).
Proof.
  apply Forall_forall. intros w Hw.
  exact (proj2 (words_are_always_black greeting_data no_guardrails [0%nat]
                  (created_store greeting_data no_guardrails) 0%nat w
                  eq_refl (or_introl eq_refl) Hw)).
Defined.

(** ** Language tags *)





(** ** Moderation flags and the guard of [generate_document] *)

Lemma moderation_of_Ok (data : bda_data) (cli : cli_args) (index : nat)
  (m : list Guardrail.t) (g : Guardrail.t) :
  moderation_of data cli index = Ok m -> In g m ->
  guardrailCheck cli = "on"
  /\ (guardrailLimit cli <=? Guardrail.confidence g)%float = true.
Proof.
  unfold moderation_of.
  destruct (String.eqb_spec (guardrailCheck cli) "on") as [E|E].
  - destruct (content_moderation data) as [cm|]; [|discriminate].
    destruct (nth_error cm index) as [cats|]; [|discriminate].
    intros H Hg. injection H as <-. apply filter_In in Hg as [_ Hg]. auto.
  - intros H Hg. injection H as <-. contradiction.
Qed.

(** X10.  A segment that [create_turn_by_turn_segments] returns carries
    moderation flags only when the guardrail check is on, and then every
    flag it carries has a confidence of at least the guardrail limit. *)
Theorem created_flags_reach_limit (data : bda_data) (cli : cli_args)
  (out : list ref) (h : store) (r : ref) (g : Guardrail.t) :
  create_turn_by_turn_segments data cli = Ok (out, h) ->
  In r out -> In g (segmentContentModeration (h r)) ->
  guardrailCheck cli = "on"
  /\ (guardrailLimit cli <=? Guardrail.confidence g)%float = true.
Proof.
  intros H Hr Hg. apply create_Ok in H as (l & h0 & Hnd & Hm & HF).
  pose proof (merge_output_incl _ _ _ _ Hm r Hr) as Hin.
  apply merge_speaker_segments_Ok in Hm as (st & Hm & _).
  rewrite (static_moderation _ _ (merge_loop_static _ _ _ _ _ r Hm)) in Hg.
  rewrite Forall_forall in HF.
  destruct (HF (h0 r) (in_map h0 _ _ Hin)) as (i & turn & _ & Hb).
  unfold build_segment in Hb.
  apply bind_Ok in Hb as (toks & _ & Hb). apply bind_Ok in Hb as (m & Hmod & Hb).
  injection Hb as Hb. rewrite <- Hb in Hg. simpl in Hg.
  exact (moderation_of_Ok _ _ _ _ _ Hmod Hg).
Qed.

Lemma created_flags_scenario :
  map Guardrail.category
    (segmentContentModeration (created_store moderated_data guardrails_at_half 0%nat))
  = ["profanity"]
  /\ Forall (fun g => (0.5 <=? Guardrail.confidence g)%float = true)
       (segmentContentModeration (created_store moderated_data guardrails_at_half 0%nat)).
Proof.
  split; [reflexivity|].
  apply Forall_forall. intros g Hg.
  exact (proj2 (created_flags_reach_limit moderated_data guardrails_at_half
                  [0%nat] (created_store moderated_data guardrails_at_half)
                  0%nat g eq_refl (or_introl eq_refl) Hg)).
Defined.

Lemma guardrail_guard_id (cli : cli_args) (data : bda_data) :
  guardrail_guard cli data = cli.
Proof.
  unfold guardrail_guard. destruct (guardrailCheck cli =? "on")%string; [|reflexivity].
  now destruct (content_moderation data).
Qed.

(** X11.  The guard of [generate_document] does not switch the guardrail
    check off when the job output has no ["content_moderation"]: with the
    check on, such an output and a first turn whose words assemble, the run
    stops with [KeyError] in the Turn Builder, whatever the scoring
    capability. *)
Theorem guardrail_check_without_data_raises
  (detect_sentiment : string -> string -> result SentimentScore.t)
  (data : bda_data) (cli : cli_args) (turn : Turn.t) (rest : list Turn.t)
  (toks : list Word.t) :
  guardrailCheck cli = "on" ->
  content_moderation data = None ->
  audio_segments data = turn :: rest ->
  assemble_words (audio_items data) (Turn.audio_item_indices turn) = Ok toks ->
  guardrailCheck (guardrail_guard cli data) = "on"
  /\ transcript detect_sentiment data cli = Raise KeyError.
Proof.
  intros Hon Hcm Hturns Ha. rewrite guardrail_guard_id. split; [exact Hon|].
  unfold transcript. rewrite guardrail_guard_id.
  unfold create_turn_by_turn_segments. rewrite Hturns. simpl.
  unfold build_segment. rewrite Ha. simpl.
  unfold moderation_of. rewrite Hon, Hcm. reflexivity.
Qed.

Lemma guardrail_check_without_data_scenario :
  transcript (constant_scores 0.65 0.1) greeting_data guardrails_at_half
  = Raise KeyError.
Proof.
  refine (proj2 (guardrail_check_without_data_raises (constant_scores 0.65 0.1)
                   greeting_data guardrails_at_half _ _ _
                   eq_refl eq_refl eq_refl _)).
  reflexivity.
Defined.

(** ** Word indices *)

Lemma py_getitem_out_of_range {A : Type} (l : list A) (i : Z) :
  (i < - Z.of_nat (List.length l) \/ Z.of_nat (List.length l) <= i)%Z ->
  py_getitem l i = Raise IndexError.
Proof.
  intros H. unfold py_getitem.
  destruct (Z.ltb_spec i 0) as [E|E].
  - assert (E2 : (i + Z.of_nat (List.length l) <? 0)%Z = true)
      by (apply Z.ltb_lt; lia).
    now rewrite E2.
  - assert (E2 : (Z.of_nat (List.length l) <=? i)%Z = true)
      by (apply Z.leb_le; lia).
    rewrite E2. now rewrite orb_true_r.
Qed.

Lemma word_loop_raises (items : list AudioItem.t) (word_ptr : Z) (e : exn) :
  py_getitem items word_ptr = Raise e ->
  forall indices st,
    In word_ptr indices -> exists e', word_loop items indices st = Raise e'.
Proof.
  intros Hp. induction indices as [|i indices IH]; intros st Hin; [easy|].
  simpl. destruct Hin as [->|Hin].
  - rewrite Hp. simpl. eauto.
  - destruct (py_getitem items i) as [w|e1]; simpl; [|eauto].
    destruct (add_word w st) as [st1|e1]; simpl; eauto.
Qed.

(** X12.  A word index that names no item of [audio_items] (at or beyond
    its length, or below minus its length) makes
    [create_turn_by_turn_segments] raise, wherever the index stands in its
    turn. *)
Theorem word_index_out_of_range_raises (data : bda_data) (cli : cli_args)
  (turn : Turn.t) (word_ptr : Z) :
  In turn (audio_segments data) ->
  In word_ptr (Turn.audio_item_indices turn) ->
  (word_ptr < - Z.of_nat (List.length (audio_items data))
   \/ Z.of_nat (List.length (audio_items data)) <= word_ptr)%Z ->
  exists e, create_turn_by_turn_segments data cli = Raise e.
Proof.
  intros Hin Hp Hrange.
  pose proof (py_getitem_out_of_range (audio_items data) word_ptr Hrange) as Hg.
  assert (Hb : forall index, exists e, build_segment data cli index turn = Raise e).
  { intros index. unfold build_segment, assemble_words.
    destruct (word_loop_raises _ _ _ Hg (Turn.audio_item_indices turn) (true, []) Hp)
      as [e ->].
    simpl. eauto. }
  unfold create_turn_by_turn_segments.
  destruct (turn_loop_raises data cli turn Hb (audio_segments data) 0%nat
              empty_store [] Hin) as [e ->].
  simpl. eauto.
Qed.

Lemma word_index_out_of_range_scenario :
  exists e, create_turn_by_turn_segments missing_item_data no_guardrails = Raise e.
Proof.
  apply (word_index_out_of_range_raises missing_item_data no_guardrails
           (hello_turn "Hello." [0; 2]%Z) 2%Z).
  - now left.
  - right. now left.
  - right. simpl. lia.
Defined.

(** ** The classifier on segments that it does not score *)

Lemma score_segment_ineligible
  (detect_sentiment : string -> string -> result SentimentScore.t)
  (s : SpeechSegment) :
  eligible s = false -> score_segment detect_sentiment s = Ok s.
Proof.
  unfold eligible, score_segment. destruct (str_in _ _); simpl; [|reflexivity].
  now intros ->.
Qed.

(** On a list without eligible segment the classifier writes every segment
    back as it was. *)
Lemma generate_sentiment_ineligible
  (detect_sentiment : string -> string -> result SentimentScore.t) :
  forall (l : list ref) (h h1 : store),
    (forall q, h1 q = h q) ->
    (forall r, In r l -> eligible (h r) = false) ->
    exists h', generate_sentiment detect_sentiment l h1 = Ok h'
               /\ forall q, h' q = h q.
Proof.
  induction l as [|r l IH]; intros h h1 Hh He; simpl; [eauto|].
  rewrite score_segment_ineligible by (rewrite Hh; apply He; now left). simpl.
  apply IH.
  - intros q. unfold upd. destruct (Nat.eqb_spec q r); subst; auto.
  - intros q Hq. apply He. now right.
Qed.



Lemma apply_scores_transcript_fields (s : SpeechSegment) (response : SentimentScore.t) :
  transcript_fields (apply_scores s response) = transcript_fields s.
Proof.
  unfold apply_scores.
  destruct (MIN_SENTIMENT_NEGATIVE <=? _)%float; [reflexivity|].
  now destruct (MIN_SENTIMENT_POSITIVE <=? _)%float.
Qed.

Lemma score_segment_transcript_fields
  (detect_sentiment : string -> string -> result SentimentScore.t)
  (s s' : SpeechSegment) :
  score_segment detect_sentiment s = Ok s' ->
  transcript_fields s' = transcript_fields s.
Proof.
  unfold score_segment. destruct (str_in _ _); [|now intros [= <-]].
  destruct (_ <=? _)%nat; [|now intros [= <-]].
  intros H. apply bind_Ok in H as (resp & _ & H). injection H as <-.
  apply apply_scores_transcript_fields.
Qed.

(** X14.  The classifier writes the sentiment fields only: the times, the
    speaker, the text, the language, the tokens and the moderation flags of
    every segment are the same after a run, and a segment that is not in the
    list is not written at all. *)
Theorem classifier_writes_only_sentiment
  (detect_sentiment : string -> string -> result SentimentScore.t)
  (l : list ref) (h h' : store) :
  generate_sentiment detect_sentiment l h = Ok h' ->
  (forall q, transcript_fields (h' q) = transcript_fields (h q))
  /\ (forall q, ~ In q l -> h' q = h q).
Proof.
  intros H. split; [|intros q Hq; exact (generate_sentiment_frame _ _ _ _ q H Hq)].
  revert h H. induction l as [|r l IH]; intros h H q; simpl in H.
  - now injection H as <-.
  - apply bind_Ok in H as (s & Hs & H). rewrite (IH _ H q).
    apply upd_field. exact (score_segment_transcript_fields _ _ _ Hs).
Qed.

Lemma classifier_writes_only_sentiment_scenario :
  transcript_fields
    (store_scored (constant_scores 0.65 0.1) (store_of [turn_AB]) [0%nat] 0%nat)
  = transcript_fields turn_AB.
Proof.
  exact (proj1 (classifier_writes_only_sentiment (constant_scores 0.65 0.1)
                  [0%nat] (store_of [turn_AB])
                  (store_scored (constant_scores 0.65 0.1) (store_of [turn_AB]) [0%nat])
                  eq_refl) 0%nat).
Defined.

(** ** The data of the sentiment chart *)

(** The loop sorts the labelled segments into the two lanes by their
    speaker label and drops every other segment. *)
Lemma collect_lanes_spec (h : store) :
  forall l ln,
    let segs := map h l in
    let ln' := collect_lanes h l ln in
    speaker0timestamps ln'
    = speaker0timestamps ln ++ map segmentStartTime (filter charted0 segs)
    /\ speaker0data ln' = speaker0data ln ++ map signed_score (filter charted0 segs)
    /\ speaker1timestamps ln'
       = speaker1timestamps ln ++ map segmentStartTime (filter charted1 segs)
    /\ speaker1data ln' = speaker1data ln ++ map signed_score (filter charted1 segs).
Proof.
  induction l as [|r l IH]; intros ln; cbn [map filter collect_lanes].
  - cbn [map]. now rewrite !app_nil_r.
  - destruct (IH (add_to_lanes (h r) ln)) as (H1 & H2 & H3 & H4).
    rewrite H1, H2, H3, H4. clear.
    assert (E0 : charted0 (h r)
                 = (segmentIsPositive (h r) || segmentIsNegative (h r))
                   && negb (str_in (segmentSpeaker (h r)) speaker1labels)
                   && str_in (segmentSpeaker (h r)) speaker0labels) by reflexivity.
    assert (E1 : charted1 (h r)
                 = (segmentIsPositive (h r) || segmentIsNegative (h r))
                   && str_in (segmentSpeaker (h r)) speaker1labels) by reflexivity.
    rewrite E0, E1. unfold add_to_lanes.
    fold (signed_score (h r)).
    destruct (segmentIsPositive (h r) || segmentIsNegative (h r));
      destruct (str_in (segmentSpeaker (h r)) speaker1labels);
      destruct (str_in (segmentSpeaker (h r)) speaker0labels);
      cbn [andb negb map app speaker0timestamps speaker0data
           speaker1timestamps speaker1data];
      rewrite <- ?app_assoc; repeat split; reflexivity.
Qed.

(** X15.  The chart shows, for each speaker, the labelled segments whose
    speaker label is one of the two of that speaker, in order: their start
    times, and their scores with the sign turned for a negative label.  A
    segment without label, or with any other speaker label, is in neither
    lane; the timestamps and the scores of a lane are as many. *)
Theorem sentiment_lanes (h : store) (speech_segments : list ref) :
  let segs := map h speech_segments in
  let ln := collect_lanes h speech_segments no_lanes in
  speaker0timestamps ln = map segmentStartTime (filter charted0 segs)
  /\ speaker0data ln = map signed_score (filter charted0 segs)
  /\ speaker1timestamps ln = map segmentStartTime (filter charted1 segs)
  /\ speaker1data ln = map signed_score (filter charted1 segs)
  /\ List.length (speaker0timestamps ln) = List.length (speaker0data ln)
  /\ List.length (speaker1timestamps ln) = List.length (speaker1data ln).
Proof.
  intros segs ln.
  destruct (collect_lanes_spec h speech_segments no_lanes) as (H1 & H2 & H3 & H4).
  simpl in H1, H2, H3, H4. fold segs in H1, H2, H3, H4. fold ln in H1, H2, H3, H4.
  rewrite H1, H2, H3, H4. repeat split; try reflexivity; now rewrite !length_map.
Qed.

Lemma py_first_nil {A : Type} : py_first (@nil A) = Raise IndexError.
Proof. reflexivity. Qed.

Lemma py_last_nil {A : Type} : py_last (@nil A) = Raise IndexError.
Proof. reflexivity. Qed.

Lemma filter_none {A : Type} (f : A -> bool) (l : list A) :
  (forall a, In a l -> f a = false) -> filter f l = [].
Proof.
  induction l as [|a l IH]; intros H; [reflexivity|].
  simpl. rewrite (H a) by now left. apply IH. intros b Hb. apply H. now right.
Qed.

Lemma lane0_empty (h : store) (speech_segments : list ref) :
  (forall r, In r speech_segments -> charted0 (h r) = false) ->
  speaker0timestamps (collect_lanes h speech_segments no_lanes) = [].
Proof.
  intros Hn. destruct (collect_lanes_spec h speech_segments no_lanes) as (H0 & _).
  rewrite H0, filter_none; [reflexivity|].
  intros s Hs. apply in_map_iff in Hs as (r & <- & Hr). auto.
Qed.

Lemma lane1_empty (h : store) (speech_segments : list ref) :
  (forall r, In r speech_segments -> charted1 (h r) = false) ->
  speaker1timestamps (collect_lanes h speech_segments no_lanes) = [].
Proof.
  intros Hn.
  destruct (collect_lanes_spec h speech_segments no_lanes) as (_ & _ & H1 & _).
  rewrite H1, filter_none; [reflexivity|].
  intros s Hs. apply in_map_iff in Hs as (r & <- & Hr). auto.
Qed.

Section SentimentChartFacts.

Variable draw_lane : float -> float -> Z -> list float -> list float -> nat -> result unit.
Variable finish_chart : float -> result unit.

Lemma chart_without_lane0 (h : store) (speech_segments : list ref) :
  (forall r, In r speech_segments -> charted0 (h r) = false) ->
  write_comprehend_sentiment draw_lane finish_chart h speech_segments
  = Raise IndexError.
Proof.
  intros Hn. unfold write_comprehend_sentiment, plot_lane. cbv zeta.
  now rewrite lane0_empty.
Qed.

(** X16.  [write_comprehend_sentiment] needs a labelled segment of each of
    the two speakers: when no segment of the first speaker is labelled, it
    raises [IndexError] at [speaker0timestamps[0]] before a lane is
    drawn; when no segment of the second speaker is labelled, it raises as
    well, at [speaker1timestamps[0]] if not in the drawing of the first
    lane. *)
Theorem sentiment_chart_needs_both_speakers (h : store) (speech_segments : list ref) :
  ((forall r, In r speech_segments -> charted0 (h r) = false) ->
   write_comprehend_sentiment draw_lane finish_chart h speech_segments
   = Raise IndexError)
  /\ ((forall r, In r speech_segments -> charted1 (h r) = false) ->
      exists e,
        write_comprehend_sentiment draw_lane finish_chart h speech_segments
        = Raise e).
Proof.
  split; intros Hn; [now apply chart_without_lane0|].
  unfold write_comprehend_sentiment. cbv zeta.
  destruct (plot_lane draw_lane _ _ _) as [[]|e]; simpl; [|eauto].
  unfold plot_lane. rewrite lane1_empty by exact Hn. simpl. eauto.
Qed.

End SentimentChartFacts.

Lemma sentiment_chart_scenario :
  write_comprehend_sentiment draws_anything finishes_anything
    (store_of [turn_A_negative; turn_B]) [0; 1]%nat
  = Raise IndexError.
Proof.
  destruct (proj2 (sentiment_chart_needs_both_speakers draws_anything
                     finishes_anything (store_of [turn_A_negative; turn_B])
                     [0; 1]%nat)) as [e He].
  - intros r [<-|[<-|[]]]; reflexivity.
  - rewrite He. revert He. vm_compute. intros [= <-]. reflexivity.
Defined.

(** X17.  With the sentiment option on and a transcript in which no
    segment is eligible for scoring, the classifier labels nothing and the
    sentiment chart raises [IndexError]: the chart has no point to draw. *)
Theorem unscored_transcript_has_no_chart
  (detect_sentiment : string -> string -> result SentimentScore.t)
  (draw_lane : float -> float -> Z -> list float -> list float -> nat -> result unit)
  (finish_chart : float -> result unit)
  (l : list ref) (h h' : store) :
  (forall r, In r l -> eligible (h r) = false /\ unset (h r)) ->
  generate_sentiment detect_sentiment l h = Ok h' ->
  write_comprehend_sentiment draw_lane finish_chart h' l = Raise IndexError.
Proof.
  intros Hl Hg.
  destruct (generate_sentiment_ineligible detect_sentiment l h h) as (h1 & Hg1 & Hq);
    [reflexivity|intros r Hr; apply Hl; exact Hr|].
  rewrite Hg in Hg1. injection Hg1 as <-.
  apply chart_without_lane0.
  intros r Hr. rewrite Hq. destruct (Hl r Hr) as (_ & Hp & Hn & _).
  unfold charted0, labelled. now rewrite Hp, Hn.
Qed.

Lemma unscored_transcript_scenario :
  write_comprehend_sentiment draws_anything finishes_anything
    (store_scored (constant_scores 0.65 0.1) (store_of [turn_A; turn_B]) [0; 1]%nat)
    [0; 1]%nat
  = Raise IndexError.
Proof.
  apply (unscored_transcript_has_no_chart (constant_scores 0.65 0.1)
           draws_anything finishes_anything [0; 1]%nat (store_of [turn_A; turn_B])).
  - intros r [<-|[<-|[]]]; repeat split; reflexivity.
  - reflexivity.
Defined.

(** ** The topic markers of the transcript table *)

Lemma py_in_starts_at (s : Z) (tt : list Topic.t) :
  py_in (PyInt s) (map PyInt (map Topic.start_time tt)) = existsb (starts_at s) tt.
Proof.
  unfold py_in. induction tt as [|d tt IH]; [reflexivity|].
  cbn [map existsb]. rewrite IH. unfold starts_at. cbn [py_eq].
  now rewrite Z.eqb_sym.
Qed.

Lemma filter_all {A : Type} (f : A -> bool) (l : list A) :
  existsb (fun a => negb (f a)) l = false -> filter f l = l.
Proof.
  induction l as [|a l IH]; [reflexivity|]. cbn [existsb filter].
  intros H. apply orb_false_iff in H as [Ha Hl].
  apply negb_false_iff in Ha. rewrite Ha, IH; auto.
Qed.

Lemma existsb_false_filter {A : Type} (f : A -> bool) (l : list A) :
  existsb f l = false ->
  filter f l = [] /\ filter (fun a => negb (f a)) l = l.
Proof.
  induction l as [|a l IH]; [now split|]. cbn [existsb filter].
  intros H. apply orb_false_iff in H as [Ha Hl]. rewrite Ha. cbn [negb].
  destruct (IH Hl) as [-> ->]. now split.
Qed.

Lemma py_index_split (s : Z) :
  forall (tt : list Topic.t) (idx : nat),
    py_index (PyInt s) (map PyInt (map Topic.start_time tt)) = Some idx ->
    exists pre d post,
      tt = pre ++ d :: post /\ List.length pre = idx
      /\ starts_at s d = true /\ existsb (starts_at s) pre = false.
Proof.
  induction tt as [|d tt IH]; intros idx; cbn [map py_index]; [discriminate|].
  cbn [py_eq]. fold (starts_at s d). destruct (starts_at s d) eqn:Hd.
  - intros [= <-]. exists [], d, tt. repeat split; auto.
  - destruct (py_index _ _) as [i|] eqn:Hi; [|discriminate].
    intros [= <-]. destruct (IH i eq_refl) as (pre & d' & post & -> & <- & Hd' & Hpre).
    exists (d :: pre), d', post. repeat split; auto.
    cbn [existsb]. now rewrite Hd, Hpre.
Qed.

Lemma pop_app {A : Type} (pre : list A) (d : A) (post : list A) :
  pop (List.length pre) (pre ++ d :: post) = pre ++ post.
Proof. induction pre as [|a pre IH]; [reflexivity|]. cbn. now rewrite IH. Qed.

Lemma pop_map {A B : Type} (f : A -> B) (idx : nat) (l : list A) :
  pop idx (map f l) = map f (pop idx l).
Proof.
  revert idx. induction l as [|a l IH]; intros [|idx]; cbn; auto.
  now rewrite IH.
Qed.

Lemma nth_error_middle {A : Type} (pre : list A) (d : A) (post : list A) :
  nth_error (pre ++ d :: post) (List.length pre) = Some d.
Proof. induction pre as [|a pre IH]; [reflexivity|]. exact IH. Qed.

(** The [while] loop marks every topic that starts at the time, in the
    order of the list, and takes exactly those off both lists. *)
Lemma mark_topics_aligned (s : Z) :
  forall (fuel : nat) (timed_topics : list Topic.t) (runs : list run),
    (List.length timed_topics <= fuel)%nat ->
    mark_topics fuel s timed_topics (map Topic.start_time timed_topics) runs
    = Ok (runs ++ marker_runs (filter (starts_at s) timed_topics),
          filter (fun d => negb (starts_at s d)) timed_topics,
          map Topic.start_time
            (filter (fun d => negb (starts_at s d)) timed_topics)).
Proof.
  induction fuel as [|fuel IH]; intros tt runs Hl.
  - destruct tt; [|cbn in Hl; lia]. cbn. now rewrite app_nil_r.
  - cbn [mark_topics]. rewrite py_in_starts_at.
    destruct (existsb (starts_at s) tt) eqn:Hin.
    + rewrite <- py_in_starts_at in Hin.
      destruct (py_index_in _ _ Hin) as (idx & Hi & _). rewrite Hi.
      destruct (py_index_split s tt idx Hi) as (pre & d & post & -> & <- & Hd & Hpre).
      rewrite nth_error_middle, pop_map, pop_app.
      rewrite IH by (rewrite length_app in *; cbn in Hl; lia).
      destruct (existsb_false_filter _ _ Hpre) as [Hp Hn].
      rewrite !filter_app. cbn [filter]. rewrite Hd. cbn [negb].
      rewrite Hp, Hn. cbn [app marker_runs flat_map].
      rewrite <- app_assoc. reflexivity.
    + destruct (existsb_false_filter _ _ Hin) as [-> ->].
      cbn. now rewrite app_nil_r.
Qed.

Lemma filter_length_le {A : Type} (f : A -> bool) (l : list A) :
  (List.length (filter f l) <= List.length l)%nat.
Proof.
  induction l as [|a l IH]; [auto|]. cbn. destruct (f a); cbn; lia.
Qed.

Lemma write_rows_table (h : store) :
  forall (speech_segments : list ref) (timed_topics : list Topic.t)
         (rows rows' : list row),
    write_rows h speech_segments timed_topics
      (map Topic.start_time timed_topics) rows = Ok rows' ->
    rows' = rows ++ topic_rows h speech_segments timed_topics
    /\ forall r, In r speech_segments ->
         py_int (segmentStartTime (h r) * 1000.0)%float = Ok (start_millis h r).
Proof.
  induction speech_segments as [|segment rest IH]; intros tt rows rows' H.
  - cbn in H. injection H as <-. cbn. rewrite app_nil_r. now split.
  - cbn [write_rows] in H.
    apply bind_Ok in H as (a & Ha & H).
    apply bind_Ok in H as (b & _ & H).
    rewrite length_map, mark_topics_aligned in H by auto.
    cbn [bind] in H. rewrite int_not_in_dicts in H.
    apply IH in H as [-> Hr].
    assert (Es : start_millis h segment = a) by (unfold start_millis; now rewrite Ha).
    split.
    + cbn [topic_rows]. rewrite Es, <- app_assoc. reflexivity.
    + intros r [<-|Hin]; [now rewrite Es|auto].
Qed.



Lemma filter_marker_runs (topics : list Topic.t) :
  List.length (filter is_marker (marker_runs topics)) = List.length topics.
Proof.
  unfold marker_runs. induction topics as [|d topics IH]; [reflexivity|].
  cbn. now rewrite IH.
Qed.

Lemma filter_marker_words (ws : list Word.t) :
  filter is_marker
    (map (fun eachWord => WordRun (Word.text eachWord) (Word.confidence eachWord)) ws)
  = [].
Proof. induction ws as [|w ws IH]; [reflexivity|]. exact IH. Qed.

Lemma filter_split_length {A : Type} (f g : A -> bool) (l : list A) :
  List.length (filter (fun a => f a || g a) l)
  = (List.length (filter f l)
     + List.length (filter g (filter (fun a => negb (f a)) l)))%nat.
Proof.
  induction l as [|a l IH]; [reflexivity|]. cbn [filter].
  destruct (f a); cbn [orb negb].
  - cbn [List.length]. rewrite IH. reflexivity.
  - cbn [filter]. destruct (g a); cbn [List.length]; rewrite IH; lia.
Qed.

Lemma topic_rows_markers (h : store) :
  forall (speech_segments : list ref) (timed_topics : list Topic.t),
    List.length
      (filter is_marker
         (flat_map row_content (topic_rows h speech_segments timed_topics)))
    = List.length (filter (starts_with_one h speech_segments) timed_topics).
Proof.
  induction speech_segments as [|segment rest IH]; intros tt.
  - cbn. induction tt as [|d tt IHt]; [reflexivity|exact IHt].
  - cbn [topic_rows flat_map row_content].
    rewrite !filter_app, !length_app, filter_marker_runs, filter_marker_words.
    cbn [List.length]. rewrite IH, Nat.add_0_r.
    change (starts_with_one h (segment :: rest))
      with (fun d => starts_at (start_millis h segment) d || starts_with_one h rest d).
    rewrite (filter_split_length (starts_at (start_millis h segment))
               (starts_with_one h rest) tt).
    reflexivity.
Qed.

(** X19.  In a table that [write_transcribe_text] has written, the number
    of topic markers is the number of topics whose start time is the start
    time, in milliseconds, of one of the segments: such a topic is marked
    once, however many segments start at its time, and a topic that starts
    at no segment's start time is not marked at all. *)
Theorem topics_marked_once (h : store) (speech_segments : list ref)
  (timed_topics : list Topic.t) (rows : list row) :
  write_transcribe_text h speech_segments timed_topics = Ok rows ->
  List.length (filter is_marker (flat_map row_content rows))
  = List.length (filter (starts_with_one h speech_segments) timed_topics)
  /\ (List.length (filter is_marker (flat_map row_content rows))
      <= List.length timed_topics)%nat.
Proof.
  intros H. apply write_rows_table in H as [-> _]. cbn [app].
  rewrite topic_rows_markers. split; [reflexivity|apply filter_length_le].
Qed.

Lemma topics_marked_once_scenario :
  List.length
    (filter is_marker
       (flat_map row_content
          (rows_of (write_transcribe_text (store_of [turn_A; turn_A]) [0; 1]%nat
                      topics_at_start))))
  = 2%nat.
Proof.
  exact (proj1 (topics_marked_once (store_of [turn_A; turn_A]) [0; 1]%nat
                  topics_at_start _ eq_refl)).
Defined.

Lemma in_marker_runs (n : Z) (topics : list Topic.t) :
  In (TopicMarker n) (marker_runs topics) ->
  exists d, In d topics /\ (Topic.index d + 1)%Z = n.
Proof.
  induction topics as [|d topics IH]; cbn; [easy|].
  intros [[= <-]|[[=]|H]]; [eauto|].
  destruct (IH H) as (d' & Hd' & E). eauto.
Qed.

Lemma topic_rows_sound (h : store) :
  forall (speech_segments : list ref) (timed_topics : list Topic.t)
         (r : row) (n : Z),
    In r (topic_rows h speech_segments timed_topics) ->
    In (TopicMarker n) (row_content r) ->
    In (row_segment r) speech_segments
    /\ exists d, In d timed_topics /\ (Topic.index d + 1)%Z = n
                 /\ Topic.start_time d = start_millis h (row_segment r).
Proof.
  induction speech_segments as [|segment rest IH]; intros tt r n; cbn [topic_rows];
    [intros []|].
  intros [<-|Hr] Hn.
  - cbn [row_content row_segment] in *. split; [now left|].
    apply in_app_or in Hn as [Hn|Hn].
    + apply in_marker_runs in Hn as (d & Hd & E).
      apply filter_In in Hd as [Hd Hs]. exists d. repeat split; auto.
      now apply Z.eqb_eq in Hs.
    + apply in_map_iff in Hn as (w & [=] & _).
  - destruct (IH _ r n Hr Hn) as (Hin & d & Hd & E & Hs). split; [now right|].
    apply filter_In in Hd as [Hd _]. eauto.
Qed.

(** X20.  A marker "[Topic n]" in a row of the table stands for a topic of
    the list with index n - 1 whose start time is the start time of the
    row's segment in whole milliseconds: no marker is invented and none is
    put in the row of a segment that starts at another time. *)
Theorem topic_marker_sound (h : store) (speech_segments : list ref)
  (timed_topics : list Topic.t) (rows : list row) (r : row) (n : Z) :
  write_transcribe_text h speech_segments timed_topics = Ok rows ->
  In r rows ->
  In (TopicMarker n) (row_content r) ->
  exists d, In d timed_topics /\ (Topic.index d + 1)%Z = n
            /\ py_int (segmentStartTime (h (row_segment r)) * 1000.0)%float
               = Ok (Topic.start_time d).
Proof.
  intros H Hr Hn. apply write_rows_table in H as [-> Hc]. cbn [app] in Hr.
  destruct (topic_rows_sound h _ _ r n Hr Hn) as (Hin & d & Hd & E & Hs).
  exists d. repeat split; auto. rewrite Hs. now apply Hc.
Qed.

Lemma topic_marker_sound_scenario :
  exists d, In d topics_at_start /\ (Topic.index d + 1)%Z = 3%Z
            /\ py_int (segmentStartTime turn_A * 1000.0)%float
               = Ok (Topic.start_time d).
Proof.
  refine (topic_marker_sound (store_of [turn_A; turn_B]) [0; 1]%nat topics_at_start
            _ {| row_segment := 0%nat; row_speaker := "spk_0";
                 row_content := [TopicMarker 1; Space; TopicMarker 3; Space;
                                 WordRun "Good" 1.0; WordRun " morning." 1.0] |}
            3%Z eq_refl _ _).
  - left. reflexivity.
  - cbn. auto.
Defined.

(** ** Start times in milliseconds *)

Lemma failures_below_none (f : Z -> bool) (n : nat) :
  failures_below f n = [] ->
  forall k, (0 <= k < Z.of_nat n)%Z -> f k = true.
Proof.
  induction n as [|n IH]; intros H k Hk; [lia|].
  cbn [failures_below] in H. apply app_eq_nil in H as [H1 H2].
  destruct (Z.eq_dec k (Z.of_nat n)) as [->|Hne].
  - destruct (f (Z.of_nat n)); [reflexivity|discriminate].
  - apply IH; [exact H1|lia].
Qed.

(** X21.  A turn that starts at [n] milliseconds has the start time
    [float(n) / 1000.0], and the writer looks for the topics that start at
    [int(segmentStartTime * 1000.0)].  For [n] below 2048 the writer gets
    [n] back, except at the odd numbers from 1001 to 1023 and at 2002, 2006,
    ..., 2046, where it gets [n - 1]: a topic that starts with a turn at one
    of these times is looked up at the millisecond before. *)
Theorem millis_round_trip_below_2048 (n : Z) :
  (0 <= n < 2048)%Z ->
  millis_round_trip n
  = Ok (if loses_a_millisecond n then (n - 1)%Z else n).
Proof.
  intros Hn.
  assert (H : failures_below
                (fun k => match millis_round_trip k with
                          | Ok m => (m =? (if loses_a_millisecond k
                                           then k - 1 else k))%Z
                          | Raise _ => false
                          end) 2048 = []) by (vm_compute; reflexivity).
  pose proof (failures_below_none _ _ H n Hn) as Hk. cbv beta in Hk.
  destruct (millis_round_trip n) as [m|e]; [|discriminate].
  apply Z.eqb_eq in Hk. now subst.
Qed.

Lemma millis_round_trip_scenario :
  millis_round_trip 1001 = Ok 1000%Z /\ millis_round_trip 1002 = Ok 1002%Z.
Proof.
  split.
  - apply (millis_round_trip_below_2048 1001). lia.
  - apply (millis_round_trip_below_2048 1002). lia.
Defined.
